(** * yt-summarize: a shallow embedding of [yt-summarize.py]

    The script is a linear pipeline
    URL -> video id -> title -> transcript -> summary -> note.
    Text is modelled as Python has it: a [str] is a sequence of code
    points.  What lies outside the script (the process environment, the
    HTTP client, the transcript service, the completion client, and the
    library functions whose results the script only passes on) is a
    [World] of deterministic answers; a library call either returns or
    raises an exception of class [Exception].  The lookups on a track list
    follow the transcript library.  What the script prints and which calls
    it makes are recorded, in order, as a list of [event]s; [sys.exit] is
    the exception [SystemExit], as in Python. *)

From Stdlib Require Import String Ascii DecimalString.
From Stdlib Require Import List NArith ZArith Bool Lia.
From Stdlib Require QArith_base.
Import ListNotations.

Set Implicit Arguments.

(** ** Python strings *)

Definition char := N.
Definition str := list char.

(** A literal of the source, given as its ASCII text. *)
Definition lit (s : string) : str :=
  map N_of_ascii (list_ascii_of_string s).

Definition nl : char := 10%N.       (* "\n" *)
Definition dquote : char := 34%N.   (* the double quote *)
Definition bslash : char := 92%N.   (* the backslash *)

(** [a == b] *)
Definition str_eqb (a b : str) : bool :=
  if list_eq_dec N.eq_dec a b then true else false.

(** [len(s)] *)
Definition len (s : str) : Z := Z.of_nat (length s).

(** [s[:n]] for a non-negative [n] *)
Definition slice_to (n : Z) (s : str) : str := firstn (Z.to_nat n) s.

(** [sep.join(parts)]: the first part, then each further part preceded by
    the separator. *)
Definition join (sep : str) (parts : list str) : str :=
  match parts with
  | [] => []
  | p :: ps => fold_left (fun acc q => acc ++ sep ++ q) ps p
  end.

(** [str(n)] for an integer *)
Definition str_of_int (n : Z) : str :=
  lit (NilZero.string_of_int (Z.to_int n)).

(** [str.isspace] on one code point: the characters Python's [strip()]
    removes. *)
Definition isspace (c : char) : bool :=
  ((9 <=? c) && (c <=? 13) || (28 <=? c) && (c <=? 32)
   || (c =? 133) || (c =? 160) || (c =? 5760)
   || (8192 <=? c) && (c <=? 8202)
   || (c =? 8232) || (c =? 8233) || (c =? 8239) || (c =? 8287)
   || (c =? 12288))%N.

Fixpoint lstrip (s : str) : str :=
  match s with
  | c :: s' => if isspace c then lstrip s' else s
  | [] => []
  end.

Definition rstrip (s : str) : str := rev (lstrip (rev s)).

(** [s.strip()] *)
Definition strip (s : str) : str := rstrip (lstrip s).

(** ** Regular expressions ([re])

    The fragment of [re] the script uses: literal characters, [.],
    character sets, concatenation, the greedy star of a one-character
    item, a counted repetition [{n}] of a one-character item, and a
    capturing group.  Matching is the backtracking search of [re]:
    alternatives are tried in priority order and the first success wins. *)

Inductive atom :=
| Chr (c : char)                      (* a literal character *)
| Dot                                 (* .   anything but a newline *)
| CharSet (ranges : list (char * char)).  (* [...]  a union of ranges *)

Definition atom_matches (a : atom) (c : char) : bool :=
  match a with
  | Chr d => (c =? d)%N
  | Dot => negb (c =? nl)%N
  | CharSet rs => existsb (fun r => (fst r <=? c)%N && (c <=? snd r)%N) rs
  end.

Inductive regex :=
| Eps
| Atom (a : atom)
| Seq (r1 r2 : regex)
| Star (a : atom)                     (* a*   greedy *)
| Rep (n : nat) (a : atom)            (* a{n} *)
| Group (r : regex).                  (* ( ... )  group 1 *)

(** Group 1 of a match in progress: [None] until the group has closed. *)
Definition captures := option str.

Section Matcher.
Variable R : Type.

(** Greedy star: consume as long as possible, give back one character at
    a time until the continuation accepts. *)
Fixpoint star (a : atom) (k : str -> option R) (s : str) : option R :=
  match s with
  | c :: s' =>
      if atom_matches a c then
        match star a k s' with
        | Some r => Some r
        | None => k s
        end
      else k s
  | [] => k s
  end.

Fixpoint rep (a : atom) (n : nat) (k : str -> option R) (s : str)
  : option R :=
  match n with
  | O => k s
  | S n' =>
      match s with
      | c :: s' => if atom_matches a c then rep a n' k s' else None
      | [] => None
      end
  end.

Fixpoint run (r : regex) (k : str -> captures -> option R)
         (s : str) (g : captures) : option R :=
  match r with
  | Eps => k s g
  | Atom a =>
      match s with
      | c :: s' => if atom_matches a c then k s' g else None
      | [] => None
      end
  | Seq r1 r2 => run r1 (fun s' g' => run r2 k s' g') s g
  | Star a => star a (fun s' => k s' g) s
  | Rep n a => rep a n (fun s' => k s' g) s
  | Group r1 =>
      run r1 (fun s' _ => k s' (Some (firstn (length s - length s') s))) s g
  end.
End Matcher.

(** A match object; only group 1 is ever read. *)
Record re_match := MkMatch { group1 : captures }.

(** Match at the start of [s]. *)
Definition match_here (r : regex) (s : str) : option re_match :=
  run r (fun _ g => Some (MkMatch g)) s None.

(** [re.search(r, s)]: the match at the leftmost position that has one. *)
Fixpoint re_search (r : regex) (s : str) : option re_match :=
  match match_here r s with
  | Some m => Some m
  | None =>
      match s with
      | [] => None
      | _ :: s' => re_search r s'
      end
  end.

(** [re.fullmatch(r, s)]: the whole of [s] must be consumed. *)
Definition re_fullmatch (r : regex) (s : str) : option re_match :=
  run r (fun s' g => match s' with [] => Some (MkMatch g) | _ => None end)
      s None.

(** [re.sub] for a pattern that is a single one-character item: every
    character the item matches is replaced. *)
Definition re_sub_atom (a : atom) (repl : str) (s : str) : str :=
  flat_map (fun c => if atom_matches a c then repl else [c]) s.

(** The literal text [s] as a pattern. *)
Definition lits (s : str) : regex :=
  fold_right (fun c r => Seq (Atom (Chr c)) r) Eps s.

(** ** Values the script handles *)

Definition bytes := list Byte.byte.

(** The result of a library call: a value, or an exception of class
    [Exception] carrying its message ([str(e)]). *)
Inductive result (A : Type) :=
| Ok (a : A)
| Err (msg : str).
Arguments Ok {A} a.
Arguments Err {A} msg.

(** What [json.loads] produces. *)
#[warnings="-register-all"] Inductive value :=
| VNone
| VBool (b : bool)
| VInt (n : Z)
| VFloat (repr : str)
| VStr (s : str)
| VList (items : list value)
| VDict (items : list (str * value)).   (* the items of a dict, keys distinct *)

(** The value stored under a key. *)
Fixpoint assoc {A : Type} (k : str) (items : list (str * A)) : option A :=
  match items with
  | [] => None
  | (k', v) :: rest => if str_eqb k' k then Some v else assoc k rest
  end.

(** [obj[key]] for a string key: a [KeyError] on a dict without the key, a
    [TypeError] on anything that is not a dict. *)
Definition getitem (obj : value) (key : str) : result value :=
  match obj with
  | VDict items =>
      match assoc key items with
      | Some v => Ok v
      | None => Err (lit "'" ++ key ++ lit "'")
      end
  | _ => Err (lit "indices must be integers or object is not subscriptable")
  end.

(** *** HTTP ([urllib.request]) *)

Inductive verify_mode := CERT_NONE | CERT_REQUIRED.

Record ssl_context := MkSsl {
  check_hostname : bool;
  verify : verify_mode
}.

Definition create_default_context : ssl_context :=
  MkSsl true CERT_REQUIRED.

Record http_request := MkRequest {
  req_url : str;
  req_method : str;
  req_headers : list (str * str);
  req_data : option bytes
}.

Record http_response := MkResponse {
  status : Z;
  read : result bytes
}.

(** *** Caption tracks ([youtube_transcript_api]) *)

Record snippet := MkSnippet {
  text : str;
  start : QArith_base.Q;
  duration : QArith_base.Q
}.

Record transcript := MkTranscript {
  language_code : str;
  is_generated : bool;
  translation_languages : list str;
  (* what [fetch()] on this track yields *)
  entries : result (list snippet);
  (* what [fetch()] on its translation into a language yields *)
  translated_entries : str -> result (list snippet)
}.

(** A [TranscriptList]: the tracks of its two dicts, each keyed by language
    code, in insertion order. *)
Record transcript_list := MkTranscriptList {
  manually_created : list transcript;
  generated : list transcript
}.

(** [d.get(code)] on one of the two dicts *)
Definition dict_get (code : str) (d : list transcript) : option transcript :=
  find (fun t => str_eqb (language_code t) code) d.

(** [_find_transcript]: for each requested code in turn, the first dict
    that has it; [NoTranscriptFound] otherwise. *)
Fixpoint find_in_dicts (code : str) (dicts : list (list transcript))
  : option transcript :=
  match dicts with
  | [] => None
  | d :: ds =>
      match dict_get code d with
      | Some t => Some t
      | None => find_in_dicts code ds
      end
  end.

Fixpoint find_transcript_in (codes : list str) (dicts : list (list transcript))
  : result transcript :=
  match codes with
  | [] => Err (lit "No transcripts were found for any of the requested language codes")
  | c :: cs =>
      match find_in_dicts c dicts with
      | Some t => Ok t
      | None => find_transcript_in cs dicts
      end
  end.

Definition find_manually_created_transcript (tl : transcript_list)
           (codes : list str) : result transcript :=
  find_transcript_in codes [manually_created tl].

Definition find_generated_transcript (tl : transcript_list)
           (codes : list str) : result transcript :=
  find_transcript_in codes [generated tl].

(** [next(iter(tl))]: manually created tracks are enumerated before
    generated ones; [StopIteration] (with an empty message) when there is
    no track. *)
Definition next_iter (tl : transcript_list) : result transcript :=
  match manually_created tl ++ generated tl with
  | t :: _ => Ok t
  | [] => Err []
  end.

(** [t.translate(code)]: [NotTranslatable] for a track without translation
    languages, [TranslationLanguageNotAvailable] for a language that is not
    among them; otherwise the translated track, which counts as generated
    and has no translations of its own. *)
Definition translate (t : transcript) (code : str) : result transcript :=
  match translation_languages t with
  | [] => Err (lit "The requested language is not translatable")
  | _ :: _ =>
      if existsb (str_eqb code) (translation_languages t) then
        Ok (MkTranscript code true [] (translated_entries t code)
                         (fun _ => Err (lit "The requested language is not translatable")))
      else Err (lit "The requested translation language is not available")
  end.

(** *** The completion client ([anthropic]) *)

Record chat_message := MkChat { role : str; content : str }.

Record completion_request := MkCompletion {
  model : str;
  max_tokens : Z;
  messages : list chat_message
}.

Inductive content_block :=
| TextBlock (text : str)
| OtherBlock.

Record message := MkMessage { blocks : list content_block }.

(** [message.content[0].text] *)
Definition first_text (m : message) : result str :=
  match blocks m with
  | [] => Err (lit "list index out of range")
  | TextBlock t :: _ => Ok t
  | OtherBlock :: _ => Err (lit "object has no attribute 'text'")
  end.

(** ** The world outside the script *)

(** One field per call the script makes to the outside. *)
Record World := MkWorld {
  (* os.environ.get(name) *)
  environ : str -> option str;
  (* int(s), a ValueError when s is no integer literal *)
  int_of_str : str -> result Z;
  (* str(v) for a value that is not a str *)
  repr_value : value -> str;
  (* urllib.request.quote(s, safe='/') *)
  quote : str -> result str;
  (* s.encode("utf-8") *)
  encode_utf8 : str -> result bytes;
  (* json.loads *)
  json_loads : bytes -> result value;
  (* urllib.request.urlopen(request, context=ctx) *)
  urlopen : http_request -> option ssl_context -> result http_response;
  (* YouTubeTranscriptApi().list(video_id) *)
  list_transcripts : str -> result transcript_list;
  (* anthropic.Anthropic() *)
  anthropic_client : result unit;
  (* client.messages.create(...) *)
  messages_create : completion_request -> result message
}.

(** ** Effects: an event trace and Python's exceptions *)

Inductive event :=
| Stdout (s : str)
| Stderr (s : str)
| Traceback (msg : str)                 (* the interpreter's report of an uncaught exception *)
| UrlOpen (req : http_request) (ctx : option ssl_context)
| ListTranscripts (video_id : str)
| FindManuallyCreated (codes : list str)
| FindGenerated (codes : list str)
| NextIter
| Translate (from to : str)
| Fetch (code : str) (auto : bool)
| MessagesCreate (req : completion_request).

(** [SystemExit] is not a subclass of [Exception]: [except Exception] lets
    it through. *)
Inductive exn :=
| Exception (msg : str)
| SystemExit (code : Z).

Inductive outcome (A : Type) :=
| Ret (a : A)
| Raise (e : exn).
Arguments Ret {A} a.
Arguments Raise {A} e.

(** A computation: the events it caused, and how it ended. *)
Definition M (A : Type) : Type := list event * outcome A.

Definition ret {A} (a : A) : M A := ([], Ret a).

Definition bind {A B} (m : M A) (f : A -> M B) : M B :=
  match m with
  | (t, Ret a) => let (t', o) := f a in (t ++ t', o)
  | (t, Raise e) => (t, Raise e)
  end.

Notation "x <- m ;; k" := (bind m (fun x => k))
  (at level 61, m at next level, right associativity).
Notation "m ;;; k" := (bind m (fun _ => k))
  (at level 61, right associativity).

Definition emit (e : event) : M unit := ([e], Ret tt).

Definition raise {A} (e : exn) : M A := ([], Raise e).

Definition lift {A} (r : result A) : M A :=
  match r with
  | Ok a => ret a
  | Err msg => raise (Exception msg)
  end.

(** A library call: it is recorded, then it returns or raises. *)
Definition call {A} (e : event) (r : result A) : M A :=
  emit e ;;; lift r.

(** [try: body except Exception as e: handler(str(e))] *)
Definition try_except {A} (body : M A) (handler : str -> M A) : M A :=
  match body with
  | (t, Raise (Exception msg)) => let (t', o) := handler msg in (t ++ t', o)
  | _ => body
  end.

(** [print(s)] and [print(s, file=sys.stderr)] *)
Definition print (s : str) : M unit := emit (Stdout (s ++ [nl])).
Definition print_err (s : str) : M unit := emit (Stderr (s ++ [nl])).

(** [sys.exit(code)] *)
Definition sys_exit {A} (code : Z) : M A := raise (SystemExit code).

Definition trace {A} (m : M A) : list event := fst m.
Definition result_of {A} (m : M A) : outcome A := snd m.

(** ** The script *)

(** [[a-zA-Z0-9_-]] *)
Definition id_chars : atom :=
  CharSet [(97, 122); (65, 90); (48, 57); (95, 95); (45, 45)]%N.

(** [([a-zA-Z0-9_-]{11})] *)
Definition id_group : regex := Group (Rep 11 id_chars).

(** The five URL patterns of [extract_video_id], in the order of the
    source. *)
Definition pat_short : regex :=          (* (?:youtu\.be/)(...) *)
  Seq (lits (lit "youtu.be/")) id_group.
Definition pat_watch : regex :=          (* (?:youtube\.com/watch\?.*v=)(...) *)
  Seq (Seq (lits (lit "youtube.com/watch?")) (Seq (Star Dot) (lits (lit "v="))))
      id_group.
Definition pat_embed : regex :=          (* (?:youtube\.com/embed/)(...) *)
  Seq (lits (lit "youtube.com/embed/")) id_group.
Definition pat_v : regex :=              (* (?:youtube\.com/v/)(...) *)
  Seq (lits (lit "youtube.com/v/")) id_group.
Definition pat_shorts : regex :=         (* (?:youtube\.com/shorts/)(...) *)
  Seq (lits (lit "youtube.com/shorts/")) id_group.

Definition patterns : list regex :=
  [pat_short; pat_watch; pat_embed; pat_v; pat_shorts].

(** [[a-zA-Z0-9_-]{11}], the bare identifier *)
Definition pat_bare : regex := Rep 11 id_chars.

(** The character set of the title pattern: backslash, slash, colon,
    star, question mark, double quote, angle brackets and bar. *)
Definition forbidden : atom :=
  CharSet (map (fun c => (c, c))
               (bslash :: lit "/:*?" ++ dquote :: lit "<>|")).

(** [m.group(1)]: an [IndexError] when the pattern has no group. *)
Definition group (m : re_match) : result str :=
  match group1 m with
  | Some v => Ok v
  | None => Err (lit "no such group")
  end.

(** The [for pattern in patterns] loop of [extract_video_id]; [rest] is
    the code after the loop. *)
Fixpoint for_patterns (ps : list regex) (url : str) (rest : M str) : M str :=
  match ps with
  | [] => rest
  | pattern :: ps' =>
      match re_search pattern url with
      | Some m => lift (group m)
      | None => for_patterns ps' url rest
      end
  end.

Definition extract_video_id (url : str) : M str :=
  for_patterns patterns url
    (match re_fullmatch pat_bare url with
     | Some _ => ret url
     | None =>
         print_err (lit "Error: Could not extract video ID from: " ++ url) ;;;
         sys_exit 1
     end).

Definition GET (url : str) : http_request := MkRequest url (lit "GET") [] None.

(** [f"{v}"] *)
Definition fmt (w : World) (v : value) : str :=
  match v with
  | VStr s => s
  | _ => repr_value w v
  end.

Section Script.
Variable w : World.

Definition fetch_video_title (video_id : str) : M value :=
  try_except
    (let url :=
       lit "https://www.youtube.com/oembed?url=https://www.youtube.com/watch?v="
       ++ video_id ++ lit "&format=json" in
     resp <- call (UrlOpen (GET url) None) (urlopen w (GET url) None) ;;
     raw <- lift (read resp) ;;
     data <- lift (json_loads w raw) ;;
     lift (getitem data (lit "title")))
    (fun _ => ret (VStr video_id)).

(** The track [fetch_transcript] reads: the nested [try] blocks. *)
Definition select_transcript (tl : transcript_list) : M transcript :=
  try_except
    (call (FindManuallyCreated [lit "en"])
          (find_manually_created_transcript tl [lit "en"]))
    (fun _ =>
       try_except
         (call (FindGenerated [lit "en"])
               (find_generated_transcript tl [lit "en"]))
         (fun _ =>
            t <- call NextIter (next_iter tl) ;;
            call (Translate (language_code t) (lit "en"))
                 (translate t (lit "en")))).

Definition fetch_transcript (video_id : str) : M str :=
  try_except
    (tl <- call (ListTranscripts video_id) (list_transcripts w video_id) ;;
     t <- select_transcript tl ;;
     es <- call (Fetch (language_code t) (is_generated t)) (entries t) ;;
     ret (join (lit " ") (map text es)))
    (fun e =>
       print_err (lit "Error fetching transcript: " ++ e) ;;;
       sys_exit 1).

Definition max_chars : Z := 100000.

(** The transcript as it is put into the prompt. *)
Definition truncated (transcript : str) : str :=
  if (len transcript >? max_chars)%Z then
    slice_to max_chars transcript ++ nl :: lit "[transcript truncated]"
  else transcript.

Definition prompt (transcript : str) : str :=
  lit "Below is a transcript of a YouTube video. "
  ++ lit "Please provide a structured summary with:" ++ [nl]
  ++ lit "1. A one-line TLDR" ++ [nl]
  ++ lit "2. Key points (bulleted)" ++ [nl]
  ++ lit "3. A brief conclusion" ++ [nl; nl]
  ++ lit "Keep the summary concise and readable." ++ [nl; nl]
  ++ lit "TRANSCRIPT:" ++ [nl] ++ transcript.

Definition completion (transcript : str) : completion_request :=
  MkCompletion (lit "claude-sonnet-4-20250514") 1024
               [MkChat (lit "user") (prompt transcript)].

Definition summarize (transcript : str) : M str :=
  _ <- lift (anthropic_client w) ;;
  let transcript := truncated transcript in
  message <- call (MessagesCreate (completion transcript))
                  (messages_create w (completion transcript)) ;;
  lift (first_text message).

Definition environ_get (name default : str) : str :=
  match environ w name with
  | Some v => v
  | None => default
  end.

(** [re.sub(pattern, hyphen, title).strip()]; a [TypeError] when the
    title is not a string. *)
Definition safe_title (title : value) : result str :=
  match title with
  | VStr t => Ok (strip (re_sub_atom forbidden (lit "-") t))
  | _ => Err (lit "expected string or bytes-like object")
  end.

Definition note_path (folder safe : str) : str :=
  folder ++ lit "/" ++ safe ++ lit ".md".

Definition note_content (video_id summary : str) : str :=
  lit "---" ++ [nl]
  ++ lit "source: https://www.youtube.com/watch?v=" ++ video_id ++ [nl]
  ++ lit "type: youtube-summary" ++ [nl]
  ++ lit "---" ++ [nl; nl]
  ++ summary ++ [nl].

(** The context that trusts the plugin's self-signed certificate. *)
Definition trusting_context : ssl_context :=
  let ctx := create_default_context in
  let ctx := MkSsl false (verify ctx) in
  MkSsl (check_hostname ctx) CERT_NONE.

Definition put_request (url api_key : str) (data : bytes) : http_request :=
  MkRequest url (lit "PUT")
            [(lit "Authorization", lit "Bearer " ++ api_key);
             (lit "Content-Type", lit "text/markdown")]
            (Some data).

(** The last [try] block of [send_to_obsidian]. *)
Definition upload (req : http_request) (path : str) : M unit :=
  try_except
    (resp <- call (UrlOpen req (Some trusting_context))
                  (urlopen w req (Some trusting_context)) ;;
     if (status resp <? 300)%Z then
       print_err (lit "Saved to Obsidian: " ++ path)
     else ret tt)
    (fun e =>
       print_err (lit "Error sending to Obsidian: " ++ e) ;;;
       sys_exit 1).

Definition send_to_obsidian (title : value) (video_id summary : str)
  : M unit :=
  match environ w (lit "OBSIDIAN_REST_API_KEY") with
  | None | Some [] =>
      print_err (lit "Error: OBSIDIAN_REST_API_KEY environment variable not set.") ;;;
      sys_exit 1
  | Some api_key =>
      port <- lift (int_of_str w (environ_get (lit "OBSIDIAN_REST_PORT") (lit "27124"))) ;;
      let folder := environ_get (lit "OBSIDIAN_SUMMARY_FOLDER") (lit "transcripts/videos") in
      safe <- lift (safe_title title) ;;
      let path := note_path folder safe in
      quoted <- lift (quote w path) ;;
      let url := lit "https://127.0.0.1:" ++ str_of_int port ++ lit "/vault/" ++ quoted in
      data <- lift (encode_utf8 w (note_content video_id summary)) ;;
      upload (put_request url api_key data) path
  end.

(** The namespace [parse_args] returns. *)
Record args := MkArgs { url : str; no_obsidian : bool }.

(** [main] from its first statement after [parse_args] on.  What
    [argparse] does by itself (exit status 2 after a usage error, exit
    status 0 after printing the help text) happens before and is no run of
    this definition. *)
Definition main (a : args) : M unit :=
  video_id <- extract_video_id (url a) ;;
  print_err (lit "Fetching transcript for video: " ++ video_id ++ lit " ...") ;;;
  title <- fetch_video_title video_id ;;
  print_err (lit "Video title: " ++ fmt w title) ;;;
  transcript <- fetch_transcript video_id ;;
  print_err (lit "Transcript fetched (" ++ str_of_int (len transcript)
             ++ lit " chars). Summarizing ...") ;;;
  summary <- summarize transcript ;;
  print summary ;;;
  if negb (no_obsidian a) then send_to_obsidian title video_id summary
  else ret tt.

(** The process once the command line is parsed: what it wrote and
    requested, and its exit status.  An uncaught exception is reported by
    the interpreter and exits with 1. *)
Definition run_process (a : args) : list event * Z :=
  match main a with
  | (t, Ret _) => (t, 0%Z)
  | (t, Raise (SystemExit code)) => (t, code)
  | (t, Raise (Exception msg)) => (t ++ [Traceback msg], 1%Z)
  end.
End Script.

(** * Specification vocabulary

    The predicates in which the properties below are stated, and the
    example worlds they are tried on. *)

(** ** What a pattern matches *)

(** Every character of [m] is matched by the one-character item [a]. *)
Definition all_match (a : atom) (m : str) : Prop :=
  Forall (fun c => atom_matches a c = true) m.

(** [matches r m g g']: the text [m] is in the language of [r]; group 1 is
    [g] before the match and [g'] after it. *)
Inductive matches : regex -> str -> captures -> captures -> Prop :=
| M_eps g : matches Eps [] g g
| M_atom a c g : atom_matches a c = true -> matches (Atom a) [c] g g
| M_seq r1 r2 m1 m2 g g1 g2 :
    matches r1 m1 g g1 -> matches r2 m2 g1 g2 ->
    matches (Seq r1 r2) (m1 ++ m2) g g2
| M_star a m g : all_match a m -> matches (Star a) m g g
| M_rep a m g : all_match a m -> matches (Rep (length m) a) m g g
| M_group r m g g' : matches r m g g' -> matches (Group r) m g (Some m).

(** The pattern matches somewhere in [s]. *)
Definition occurs (r : regex) (s : str) : Prop :=
  exists pre m post g, s = pre ++ m ++ post /\ matches r m None g.

(** ** The URL shapes, in the words of the specification *)

(** A character of an identifier: a letter, a digit, [_] or [-]. *)
Definition is_id_char (c : char) : Prop :=
  (97 <= c <= 122 \/ 65 <= c <= 90 \/ 48 <= c <= 57 \/ c = 95 \/ c = 45)%N.

(** A video identifier: eleven identifier characters. *)
Definition valid_id (v : str) : Prop :=
  length v = 11 /\ Forall is_id_char v.

(** The five URL shapes, named after their patterns. *)
Inductive shape := Short | Watch | Embed | VPath | Shorts.

(** The shapes in the order of the pattern list. *)
Definition shapes : list shape := [Short; Watch; Embed; VPath; Shorts].

(** The pattern of the source that stands for a shape. *)
Definition pattern_of (sh : shape) : regex :=
  match sh with
  | Short => pat_short
  | Watch => pat_watch
  | Embed => pat_embed
  | VPath => pat_v
  | Shorts => pat_shorts
  end.

Definition no_newline (m : str) : Prop := Forall (fun c => c <> nl) m.

(** [shaped sh m v]: [m] is a piece of URL text of shape [sh] around the
    identifier [v]. *)
Inductive shaped : shape -> str -> str -> Prop :=
| Sh_short v : shaped Short (lit "youtu.be/" ++ v) v
| Sh_watch mid v :
    no_newline mid ->
    shaped Watch (lit "youtube.com/watch?" ++ mid ++ lit "v=" ++ v) v
| Sh_embed v : shaped Embed (lit "youtube.com/embed/" ++ v) v
| Sh_v v : shaped VPath (lit "youtube.com/v/" ++ v) v
| Sh_shorts v : shaped Shorts (lit "youtube.com/shorts/" ++ v) v.

(** The input contains, at offset [length pre], URL text of shape [sh]
    around the identifier [v]. *)
Definition contains_at (sh : shape) (s pre v : str) : Prop :=
  exists m post, s = pre ++ m ++ post /\ shaped sh m v /\ valid_id v.

(** The input contains, somewhere, URL text of shape [sh] around [v]. *)
Definition contains (sh : shape) (s v : str) : Prop :=
  exists pre, contains_at sh s pre v.

(** Some identifier is embedded in [s] under shape [sh]. *)
Definition has_shape (sh : shape) (s : str) : Prop :=
  exists v, contains sh s v.

(** ** The Identifier Resolver *)

(** [sh] is the first shape, in the order of the pattern list, under which
    the input embeds an identifier. *)
Definition earliest (sh : shape) (s : str) : Prop :=
  exists before after,
    shapes = before ++ sh :: after /\
    forall sh', In sh' before -> ~ has_shape sh' s.

(** The inputs the resolver accepts. *)
Definition accepted (s : str) : Prop :=
  (exists sh, has_shape sh s) \/ valid_id s.

(** What the resolver writes before it gives up. *)
Definition invalid_input (s : str) : M str :=
  ([Stderr (lit "Error: Could not extract video ID from: " ++ s ++ [nl])],
   Raise (SystemExit 1)).

(** The occurrence at offset [length pre] with text [m] is the one
    [re.search] reports: no occurrence of the shape starts further left,
    and none starting at the same place is longer. *)
Definition leftmost_longest (sh : shape) (s pre m : str) : Prop :=
  forall pre' m' post' v',
    s = pre' ++ m' ++ post' -> shaped sh m' v' -> valid_id v' ->
    length pre < length pre' \/
    (length pre = length pre' /\ length m' <= length m).

(** [v] is what the pattern of shape [sh] captures in [s]: the identifier
    of the leftmost occurrence of the shape, the longest at its position. *)
Definition captured (sh : shape) (s v : str) : Prop :=
  exists pre m post,
    s = pre ++ m ++ post /\ shaped sh m v /\ valid_id v /\
    leftmost_longest sh s pre m.

(** [valid_id], decided. *)
Definition valid_idb (v : str) : bool :=
  (length v =? 11)%nat && forallb (atom_matches id_chars) v.


(** ** The Transcript Fetcher *)

Definition en : str := lit "en".

(** The language code of the track is exactly [en], the one code the
    script asks for; [en-GB] and [en-US] are other codes. *)
Definition english (t : transcript) : Prop := language_code t = en.

(** The dict has an English track. *)
Definition has_english (d : list transcript) : Prop :=
  exists t, In t d /\ english t.



(** A track without translations whose entries carry the given texts. *)
Definition track (code : str) (auto : bool) (texts : list str) : transcript :=
  MkTranscript code auto []
               (Ok (map (fun s => MkSnippet s (QArith_base.Qmake 0 1)
                                            (QArith_base.Qmake 1 1)) texts))
               (fun _ => Err []).

(** The texts, each but the first preceded by one space. *)
Fixpoint spaced (parts : list str) : str :=
  match parts with
  | [] => []
  | p :: rest =>
      match rest with
      | [] => p
      | _ :: _ => p ++ lit " " ++ spaced rest
      end
  end.

(** What the fetcher writes when it gives up. *)
Definition transcript_error (e : str) : list event :=
  [Stderr (lit "Error fetching transcript: " ++ e ++ [nl])].

(** ** The HTTP client *)







(** ** The Metadata Fetcher *)

(** The address the title is asked from. *)
Definition oembed_url (video_id : str) : str :=
  lit "https://www.youtube.com/oembed?url=https://www.youtube.com/watch?v="
  ++ video_id ++ lit "&format=json".

(** The guarded block of [fetch_video_title]: the title it finds, or the
    exception of the first step that fails. *)
Definition title_lookup (w : World) (video_id : str) : result value :=
  match urlopen w (GET (oembed_url video_id)) None with
  | Err e => Err e
  | Ok resp =>
      match read resp with
      | Err e => Err e
      | Ok raw =>
          match json_loads w raw with
          | Err e => Err e
          | Ok data => getitem data (lit "title")
          end
      end
  end.


(** ** The Note Publisher *)

(** Only whitespace. *)
Definition spaces (s : str) : Prop := Forall (fun c => isspace c = true) s.

(** No whitespace at the start, none at the end. *)
Definition starts_clean (s : str) : Prop :=
  forall c r, s = c :: r -> isspace c = false.

Definition ends_clean (s : str) : Prop :=
  forall r c, s = r ++ [c] -> isspace c = false.

(** [r] is [s] without its surrounding whitespace. *)
Definition trimmed_of (s r : str) : Prop :=
  exists l t,
    s = l ++ r ++ t /\ spaces l /\ spaces t /\
    starts_clean r /\ ends_clean r.

(** The characters a file name must not contain: backslash, slash, colon,
    star, question mark, double quote, angle brackets and bar. *)
Definition forbidden_chars : list char :=
  [92; 47; 58; 42; 63; 34; 60; 62; 124]%N.

Definition is_forbidden (c : char) : Prop := In c forbidden_chars.

Definition hyphen : char := 45%N.

(** A forbidden character becomes a hyphen, any other stays. *)
Definition sanitize_char (c : char) : char :=
  if in_dec N.eq_dec c forbidden_chars then hyphen else c.

(** What the publisher does without a credential. *)
Definition missing_credential : M unit :=
  ([Stderr (lit "Error: OBSIDIAN_REST_API_KEY environment variable not set."
            ++ [nl])],
   Raise (SystemExit 1)).

(** The address a note is put to. *)
Definition vault_url (port : Z) (quoted : str) : str :=
  lit "https://127.0.0.1:" ++ str_of_int port ++ lit "/vault/" ++ quoted.

(** A store that accepts every note with [204 No Content]. *)
Definition store_accepts : World :=
  MkWorld (fun name => if str_eqb name (lit "OBSIDIAN_REST_API_KEY")
                       then Some (lit "secret") else None)
          (fun _ => Ok 27124%Z) (fun _ => []) (fun s => Ok s)
          (fun _ => Ok []) (fun _ => Err [])
          (fun _ _ => Ok (MkResponse 204 (Ok [])))
          (fun _ => Err []) (Ok tt) (fun _ => Err []).

(** ** The Orchestrator *)

(** The title the Metadata Fetcher hands to [main]. *)
Definition title_of (w : World) (video_id : str) : value :=
  match title_lookup w video_id with
  | Ok title => title
  | Err _ => VStr video_id
  end.

(** The last statement of [main]. *)
Definition publish (w : World) (a : args) (title : value)
           (video_id summary : str) : M unit :=
  if negb (no_obsidian a) then send_to_obsidian w title video_id summary
  else ret tt.

(** The progress messages of [main]. *)
Definition progress_id (video_id : str) : event :=
  Stderr (lit "Fetching transcript for video: " ++ video_id ++ lit " ..." ++ [nl]).

Definition progress_title (w : World) (title : value) : event :=
  Stderr (lit "Video title: " ++ fmt w title ++ [nl]).

Definition progress_transcript (transcript : str) : event :=
  Stderr (lit "Transcript fetched (" ++ str_of_int (len transcript)
          ++ lit " chars). Summarizing ..." ++ [nl]).

(** What has happened by the time the transcript is asked for. *)
Definition before_transcript (w : World) (video_id : str) : list event :=
  [progress_id video_id; UrlOpen (GET (oembed_url video_id)) None;
   progress_title w (title_of w video_id)].

(** An output on the standard output. *)
Definition is_stdout (e : event) : bool :=
  match e with
  | Stdout _ => true
  | _ => false
  end.

(** A request of method [PUT]: only the upload is one. *)
Definition is_upload (e : event) : bool :=
  match e with
  | UrlOpen req _ => str_eqb (req_method req) (lit "PUT")
  | _ => false
  end.

(** Neither output on the standard output nor an upload. *)
Definition quiet (t : list event) : Prop :=
  forallb (fun e => negb (is_stdout e) && negb (is_upload e)) t = true.

Definition no_upload (t : list event) : Prop :=
  forallb (fun e => negb (is_upload e)) t = true.

(** The exit status an exception that reaches the top level gives the
    process. *)
Definition exit_code (e : exn) : Z :=
  match e with
  | SystemExit code => code
  | Exception _ => 1%Z
  end.

(** The two diagnostics of the upload step. *)
Definition saved (path : str) : event :=
  Stderr (lit "Saved to Obsidian: " ++ path ++ [nl]).

Definition upload_error (e : str) : event :=
  Stderr (lit "Error sending to Obsidian: " ++ e ++ [nl]).

(** A world in which every stage succeeds up to the summary and the
    credential of the note store is missing. *)
Definition no_credential : World :=
  MkWorld (fun _ => None) (fun _ => Ok 27124%Z) (fun _ => [])
          (fun s => Ok s) (fun _ => Ok []) (fun _ => Err [])
          (fun _ _ => Err (lit "timed out"))
          (fun _ => Ok (MkTranscriptList
                          [track en false [lit "Hello"; lit "world"; lit "!"]]
                          []))
          (Ok tt)
          (fun _ => Ok (MkMessage [TextBlock (lit "TLDR: a greeting")])).

(** ** Beyond the claims: the resolver *)

(** The usual way of writing a URL of each shape. *)
Definition canonical_url (sh : shape) (v : str) : str :=
  match sh with
  | Short => lit "https://youtu.be/" ++ v
  | Watch => lit "https://www.youtube.com/watch?v=" ++ v
  | Embed => lit "https://www.youtube.com/embed/" ++ v
  | VPath => lit "https://www.youtube.com/v/" ++ v
  | Shorts => lit "https://www.youtube.com/shorts/" ++ v
  end.

(** The pattern matches at no position of [pre] in [pre ++ s]. *)
Fixpoint all_fail (r : regex) (pre s : str) : Prop :=
  match pre with
  | [] => True
  | c :: pre' => match_here r (c :: pre' ++ s) = None /\ all_fail r pre' s
  end.

(** ** Beyond the claims: kinds of events *)

Definition is_stderr (e : event) : bool :=
  match e with
  | Stderr _ => true
  | _ => false
  end.

(** A call of [urllib.request.urlopen] by the script itself.  The
    transcript library and the completion client talk to their services on
    their own; those calls are the events [ListTranscripts], [Fetch] and
    [MessagesCreate]. *)
Definition is_request (e : event) : bool :=
  match e with
  | UrlOpen _ _ => true
  | _ => false
  end.

(** A completion request. *)
Definition is_completion (e : event) : bool :=
  match e with
  | MessagesCreate _ => true
  | _ => false
  end.

(** A call into the transcript library. *)
Definition is_transcript_call (e : event) : bool :=
  match e with
  | ListTranscripts _ | FindManuallyCreated _ | FindGenerated _
  | NextIter | Translate _ _ | Fetch _ _ => true
  | _ => false
  end.

(** Something written to a stream of the process. *)
Definition writes (e : event) : bool :=
  match e with
  | Stdout _ | Stderr _ | Traceback _ => true
  | _ => false
  end.

(** Every event of [t] is of kind [p]; no event of [t] is. *)
Definition only (p : event -> bool) (t : list event) : Prop :=
  forallb p t = true.

Definition lacks (p : event -> bool) (t : list event) : Prop :=
  forallb (fun e => negb (p e)) t = true.

(** Nothing is written. *)
Definition silent (t : list event) : Prop := lacks writes t.

(** ** Beyond the claims: the publisher's preparations *)

(** Everything [send_to_obsidian] needs before it can build its request is
    there: the credential, the port, the sanitized title, the quoted path
    and the encoded note. *)
Definition upload_ready (w : World) (title : value) (video_id summary : str)
           (key : str) (port : Z) (safe quoted : str) (data : bytes) : Prop :=
  environ w (lit "OBSIDIAN_REST_API_KEY") = Some key /\ key <> [] /\
  int_of_str w (environ_get w (lit "OBSIDIAN_REST_PORT") (lit "27124")) = Ok port /\
  safe_title title = Ok safe /\
  quote w (note_path (environ_get w (lit "OBSIDIAN_SUMMARY_FOLDER")
                                  (lit "transcripts/videos")) safe) = Ok quoted /\
  encode_utf8 w (note_content video_id summary) = Ok data.

(** ** Beyond the claims: the process *)

(** A world in which the transcript is there and the completion service
    refuses the request. *)
Definition no_completion : World :=
  MkWorld (fun _ => None) (fun _ => Ok 27124%Z) (fun _ => [])
          (fun s => Ok s) (fun _ => Ok []) (fun _ => Err [])
          (fun _ _ => Err (lit "timed out"))
          (fun _ => Ok (MkTranscriptList
                          [track en false [lit "Hello"; lit "world"; lit "!"]]
                          []))
          (Ok tt)
          (fun _ => Err (lit "overloaded")).


(** * Properties *)

(** ** What a pattern matches *)

#[local] Hint Constructors matches : core.

Lemma firstn_consumed (m s' : str) :
  firstn (length (m ++ s') - length s') (m ++ s') = m.
Proof.
  rewrite length_app, Nat.add_sub.
  rewrite firstn_app, Nat.sub_diag, firstn_all. simpl.
  apply app_nil_r.
Qed.

Section MatcherTheory.
Variable R : Type.

Lemma star_sound a (k : str -> option R) s x :
  star a k s = Some x ->
  exists m s', s = m ++ s' /\ all_match a m /\ k s' = Some x.
Proof.
  revert x. induction s as [|c s IH]; simpl; intros x H.
  - exists [], []. repeat split; auto. constructor.
  - destruct (atom_matches a c) eqn:Hc.
    + destruct (star a k s) as [y|] eqn:Hs.
      * inversion H; subst y.
        destruct (IH x eq_refl) as (m & s' & -> & Hm & Hk).
        exists (c :: m), s'. repeat split; auto. constructor; auto.
      * exists [], (c :: s). repeat split; auto. constructor.
    + exists [], (c :: s). repeat split; auto. constructor.
Qed.

Lemma star_complete a (k : str -> option R) m s' :
  all_match a m -> k s' <> None -> star a k (m ++ s') <> None.
Proof.
  intros Hm Hk. induction Hm as [|c m Hc _ IH]; simpl.
  - destruct s' as [|c s']; simpl; auto.
    destruct (atom_matches a c); auto.
    destruct (star a k s'); auto. discriminate.
  - rewrite Hc. destruct (star a k (m ++ s')); [discriminate | contradiction].
Qed.

Lemma rep_sound a n (k : str -> option R) s x :
  rep a n k s = Some x ->
  exists m s', s = m ++ s' /\ length m = n /\ all_match a m /\ k s' = Some x.
Proof.
  revert s. induction n as [|n IH]; simpl; intros s H.
  - exists [], s. repeat split; auto. constructor.
  - destruct s as [|c s]; [discriminate|].
    destruct (atom_matches a c) eqn:Hc; [|discriminate].
    destruct (IH _ H) as (m & s' & -> & Hl & Hm & Hk).
    exists (c :: m), s'. simpl. repeat split; auto. constructor; auto.
Qed.

Lemma rep_exact a (k : str -> option R) m s' :
  all_match a m -> rep a (length m) k (m ++ s') = k s'.
Proof.
  induction 1 as [|c m Hc _ IH]; simpl; auto. now rewrite Hc.
Qed.
End MatcherTheory.

(** Every result of the matcher comes from a match of the pattern at the
    start of the text. *)
Lemma run_sound (R : Type) r :
  forall (k : str -> captures -> option R) s g x,
    run r k s g = Some x ->
    exists m s' g', s = m ++ s' /\ matches r m g g' /\ k s' g' = Some x.
Proof.
  induction r as [|a|r1 IH1 r2 IH2|a|n a|r IH]; simpl; intros k s g x H.
  - exists [], s, g. auto.
  - destruct s as [|c s]; [discriminate|].
    destruct (atom_matches a c) eqn:Hc; [|discriminate].
    exists [c], s, g. auto.
  - apply IH1 in H. destruct H as (m1 & s1 & g1 & -> & H1 & H).
    apply IH2 in H. destruct H as (m2 & s2 & g2 & -> & H2 & H).
    exists (m1 ++ m2), s2, g2. rewrite <- app_assoc. eauto.
  - apply star_sound in H. destruct H as (m & s' & -> & Hm & H).
    exists m, s', g. auto.
  - apply rep_sound in H. destruct H as (m & s' & -> & <- & Hm & H).
    exists m, s', g. auto.
  - apply IH in H. destruct H as (m & s' & g' & -> & Hm & H).
    rewrite firstn_consumed in H.
    exists m, s', (Some m). eauto.
Qed.

(** Whenever the pattern matches at the start of the text and the
    continuation accepts what follows, the matcher finds a result. *)
Lemma run_complete (R : Type) r m g g' :
  matches r m g g' ->
  forall (k : str -> captures -> option R) s',
    k s' g' <> None -> run r k (m ++ s') g <> None.
Proof.
  induction 1 as [g|a c g Hc|r1 r2 m1 m2 g g1 g2 _ IH1 _ IH2|a m g Hm
                 |a m g Hm|r m g g' _ IH]; simpl; intros k s' Hk.
  - exact Hk.
  - now rewrite Hc.
  - rewrite <- app_assoc. apply IH1. now apply IH2.
  - now apply star_complete.
  - now rewrite rep_exact.
  - apply IH. now rewrite firstn_consumed.
Qed.

Lemma match_here_sound r s mo :
  match_here r s = Some mo ->
  exists m post, s = m ++ post /\ matches r m None (group1 mo).
Proof.
  unfold match_here. intros H. apply run_sound in H.
  destruct H as (m & s' & g' & -> & Hm & H). inversion H; subst mo.
  exists m, s'. auto.
Qed.

Lemma match_here_complete r m post g :
  matches r m None g -> match_here r (m ++ post) <> None.
Proof.
  intros H. unfold match_here. apply (run_complete H). discriminate.
Qed.

(** [re.search] succeeds exactly when the pattern occurs in the text. *)
Lemma re_search_sound r s mo :
  re_search r s = Some mo ->
  exists pre m post, s = pre ++ m ++ post /\ matches r m None (group1 mo).
Proof.
  induction s as [|c s IH]; simpl.
  - destruct (match_here r []) eqn:Hh; [|discriminate].
    intros H; inversion H; subst. apply match_here_sound in Hh.
    destruct Hh as (m & post & -> & Hm). exists [], m, post. auto.
  - destruct (match_here r (c :: s)) eqn:Hh.
    + intros H; inversion H; subst. apply match_here_sound in Hh.
      destruct Hh as (m & post & -> & Hm). exists [], m, post. auto.
    + intros H. destruct (IH H) as (pre & m & post & -> & Hm).
      exists (c :: pre), m, post. auto.
Qed.

Lemma re_search_complete r pre m post g :
  matches r m None g -> re_search r (pre ++ m ++ post) <> None.
Proof.
  intros Hm. induction pre as [|c pre IH]; simpl.
  - pose proof (match_here_complete post Hm) as Hh.
    destruct (m ++ post); simpl;
      destruct (match_here r _); try discriminate; contradiction.
  - destruct (match_here r (c :: pre ++ m ++ post)); [discriminate | exact IH].
Qed.

Lemma re_search_occurs r s :
  re_search r s <> None <-> occurs r s.
Proof.
  split.
  - destruct (re_search r s) as [mo|] eqn:H; [|contradiction].
    intros _. apply re_search_sound in H.
    destruct H as (pre & m & post & -> & Hm). exists pre, m, post. eauto.
  - intros (pre & m & post & g & -> & Hm). eapply re_search_complete; eauto.
Qed.

Lemma re_fullmatch_spec r s :
  re_fullmatch r s <> None <-> exists g, matches r s None g.
Proof.
  unfold re_fullmatch. split.
  - destruct (run _ _ _ _) as [mo|] eqn:H; [|contradiction]. intros _.
    apply run_sound in H. destruct H as (m & s' & g' & -> & Hm & H).
    destruct s'; [|discriminate]. rewrite app_nil_r. eauto.
  - intros (g & Hm). rewrite <- (app_nil_r s).
    apply (run_complete Hm). discriminate.
Qed.

(** ** The patterns and the URL shapes *)

Lemma id_chars_spec c : atom_matches id_chars c = true <-> is_id_char c.
Proof.
  unfold is_id_char, id_chars; simpl.
  rewrite !orb_true_iff, !andb_true_iff, !N.leb_le. intuition lia.
Qed.

Lemma all_match_id v : all_match id_chars v <-> Forall is_id_char v.
Proof.
  unfold all_match. rewrite !Forall_forall.
  split; intros H c Hc; apply id_chars_spec; auto.
Qed.

Lemma all_match_dot m : all_match Dot m <-> no_newline m.
Proof.
  unfold all_match, no_newline. rewrite !Forall_forall.
  split; intros H c Hc; specialize (H c Hc); simpl in *.
  - intros ->. discriminate.
  - apply negb_true_iff, N.eqb_neq. exact H.
Qed.

Lemma matches_lits l g : matches (lits l) l g g.
Proof.
  induction l as [|c l IH]; simpl; auto.
  change (c :: l) with ([c] ++ l). econstructor; eauto.
  constructor. apply N.eqb_refl.
Qed.

Lemma matches_lits_inv l m g g' :
  matches (lits l) m g g' -> m = l /\ g' = g.
Proof.
  revert m g g'. induction l as [|c l IH]; simpl; intros m g g' H.
  - inversion H; auto.
  - inversion H as [| |r1 r2 m1 m2 g0 g1 g2 H1 H2| | |]; subst.
    inversion H1; subst. apply IH in H2. destruct H2 as [-> ->].
    simpl in *. match goal with E : (_ =? _)%N = true |- _ =>
      apply N.eqb_eq in E; subst end. auto.
Qed.

Lemma matches_id_group v g : valid_id v -> matches id_group v g (Some v).
Proof.
  intros [Hl Hv]. apply M_group with (g' := g).
  rewrite <- Hl. constructor. now apply all_match_id.
Qed.

Lemma matches_id_group_inv m g g' :
  matches id_group m g g' -> valid_id m /\ g' = Some m.
Proof.
  intros H. inversion H as [| | | | |r m0 g0 g1 Hr]; subst.
  inversion Hr; subst. split; auto. split; auto. now apply all_match_id.
Qed.

Tactic Notation "unfold_patterns" :=
  cbv [pattern_of pat_short pat_watch pat_embed pat_v pat_shorts].
Tactic Notation "unfold_patterns" "in" hyp(H) :=
  cbv [pattern_of pat_short pat_watch pat_embed pat_v pat_shorts] in H.

Lemma matches_seq_inv r1 r2 m g g2 :
  matches (Seq r1 r2) m g g2 ->
  exists m1 m2 g1,
    m = m1 ++ m2 /\ matches r1 m1 g g1 /\ matches r2 m2 g1 g2.
Proof. inversion 1; subst; eauto 7. Qed.

Lemma matches_star_inv a m g g' :
  matches (Star a) m g g' -> all_match a m /\ g' = g.
Proof. inversion 1; subst; auto. Qed.

(** A literal prefix followed by the identifier group. *)
Lemma matches_prefixed l m g :
  matches (Seq (lits l) id_group) m None g <->
  exists v, g = Some v /\ m = l ++ v /\ valid_id v.
Proof.
  split.
  - intros H. apply matches_seq_inv in H.
    destruct H as (m1 & m2 & g1 & -> & H1 & H2).
    apply matches_lits_inv in H1. destruct H1 as [-> ->].
    apply matches_id_group_inv in H2. destruct H2 as [Hv ->]. eauto.
  - intros (v & -> & -> & Hv).
    econstructor; [apply matches_lits | now apply matches_id_group].
Qed.

Lemma matches_watch m g :
  matches pat_watch m None g <->
  exists mid v,
    g = Some v /\ no_newline mid /\ valid_id v /\
    m = lit "youtube.com/watch?" ++ mid ++ lit "v=" ++ v.
Proof.
  unfold pat_watch. split.
  - intros H. apply matches_seq_inv in H.
    destruct H as (m1 & m2 & g1 & -> & H1 & H2).
    apply matches_id_group_inv in H2. destruct H2 as [Hv ->].
    apply matches_seq_inv in H1. destruct H1 as (ma & mb & ga & -> & Ha & Hb).
    apply matches_lits_inv in Ha. destruct Ha as [-> ->].
    apply matches_seq_inv in Hb. destruct Hb as (mc & md & gc & -> & Hc & Hd).
    apply matches_star_inv in Hc. destruct Hc as [Hc ->].
    apply matches_lits_inv in Hd. destruct Hd as [-> _].
    exists mc, m2. repeat split; try apply Hv.
    + now apply all_match_dot.
    + now rewrite <- !app_assoc.
  - intros (mid & v & -> & Hmid & Hv & ->).
    replace (lit "youtube.com/watch?" ++ mid ++ lit "v=" ++ v)
      with ((lit "youtube.com/watch?" ++ (mid ++ lit "v=")) ++ v)
      by now rewrite <- !app_assoc.
    econstructor; [|now apply matches_id_group].
    econstructor; [apply matches_lits|].
    econstructor; [|apply matches_lits].
    constructor. now apply all_match_dot.
Qed.

(** Each pattern of the source matches exactly the URL text of its shape,
    and captures the identifier. *)
Lemma matches_pattern sh m g :
  matches (pattern_of sh) m None g <->
  exists v, g = Some v /\ shaped sh m v /\ valid_id v.
Proof.
  destruct sh; unfold_patterns; fold pat_watch.
  2: {
    rewrite matches_watch. split.
    - intros (mid & v & -> & Hmid & Hv & ->). exists v.
      repeat split; try apply Hv. now constructor.
    - intros (v & -> & Hs & Hv). inversion Hs; subst. eauto 7. }
  all: rewrite matches_prefixed; split;
    [ intros (v & -> & -> & Hv); exists v; repeat split; try apply Hv;
      constructor
    | intros (v & -> & Hs & Hv); inversion Hs; subst; eauto ].
Qed.

Lemma occurs_has_shape sh s : occurs (pattern_of sh) s <-> has_shape sh s.
Proof.
  split.
  - intros (pre & m & post & g & -> & Hm).
    apply matches_pattern in Hm. destruct Hm as (v & -> & Hs & Hv).
    exists v, pre, m, post. auto.
  - intros (v & pre & m & post & -> & Hs & Hv).
    exists pre, m, post, (Some v). split; auto.
    apply matches_pattern. eauto.
Qed.

Lemma matches_bare s g : matches pat_bare s None g <-> valid_id s /\ g = None.
Proof.
  split.
  - intros H. inversion H; subst. repeat split; auto. now apply all_match_id.
  - intros [[Hl Hv] ->]. unfold pat_bare. rewrite <- Hl. constructor.
    now apply all_match_id.
Qed.

Lemma re_fullmatch_bare s : re_fullmatch pat_bare s <> None <-> valid_id s.
Proof.
  rewrite re_fullmatch_spec. split.
  - intros (g & H). now apply matches_bare in H.
  - intros H. exists None. now apply matches_bare.
Qed.

Lemma shape_eq_dec (a b : shape) : {a = b} + {a <> b}.
Proof. decide equality. Defined.

(** ** Which occurrence is captured

    [re.search] takes the leftmost position at which the pattern matches,
    and the greedy star makes the match at that position the longest one. *)

Lemma run_lits (R : Type) l (k : str -> captures -> option R) s g :
  run (lits l) k (l ++ s) g = k s g.
Proof.
  revert k. induction l as [|c l IH]; simpl; intros k; auto.
  rewrite N.eqb_refl. apply IH.
Qed.

Lemma run_lits_inv (R : Type) l (k : str -> captures -> option R) s g x :
  run (lits l) k s g = Some x -> exists s', s = l ++ s' /\ k s' g = Some x.
Proof.
  intros H. apply run_sound in H. destruct H as (m & s' & g' & -> & Hm & H).
  apply matches_lits_inv in Hm. destruct Hm as [-> ->]. eauto.
Qed.

Lemma run_id_group (R : Type) (k : str -> captures -> option R) v post g :
  valid_id v -> run id_group k (v ++ post) g = k post (Some v).
Proof.
  intros [Hl Hv]. unfold id_group. cbn [run]. rewrite <- Hl.
  rewrite rep_exact by now apply all_match_id.
  now rewrite firstn_consumed.
Qed.

Lemma star_greedy (R : Type) a (k : str -> option R) m s' x :
  all_match a m ->
  k s' = Some x ->
  (forall m2 s2, m ++ s' = m2 ++ s2 -> all_match a m2 ->
                 length m < length m2 -> k s2 = None) ->
  star a k (m ++ s') = Some x.
Proof.
  intros Hm Hk. induction Hm as [|c m Hc Hm IH]; intros Hlast.
  - simpl. destruct s' as [|c s']; simpl; auto.
    destruct (atom_matches a c) eqn:Hc; auto.
    destruct (star a k s') as [y|] eqn:Hs; auto.
    apply star_sound in Hs. destruct Hs as (m3 & s3 & -> & Hm3 & Hk3).
    rewrite (Hlast (c :: m3) s3) in Hk3; try discriminate; simpl; auto.
    + constructor; auto.
    + lia.
  - simpl. rewrite Hc. rewrite IH; auto.
    intros m2 s2 E Hm2 Hlen.
    apply (Hlast (c :: m2) s2); simpl; try lia.
    + now rewrite E.
    + constructor; auto.
Qed.

(** What the greedy star finds is the longest stretch after which the
    continuation accepts. *)
Lemma star_longest (R : Type) a (k : str -> option R) s x :
  star a k s = Some x ->
  exists m s',
    s = m ++ s' /\ all_match a m /\ k s' = Some x /\
    forall m2 s2, s = m2 ++ s2 -> all_match a m2 ->
                  length m < length m2 -> k s2 = None.
Proof.
  revert x. induction s as [|c s IH]; intros x H.
  - exists [], []. simpl in H. repeat split; auto; [constructor|].
    intros [|c2 m2] s2 E _ Hl; [simpl in Hl; lia | discriminate].
  - simpl in H. destruct (atom_matches a c) eqn:Hc.
    + destruct (star a k s) as [y|] eqn:Hs.
      * inversion H; subst y.
        destruct (IH x eq_refl) as (m & s' & -> & Hm & Hk & Hmax).
        exists (c :: m), s'. repeat split; auto; [constructor; auto|].
        intros [|c2 m2] s2 E Hm2 Hl; [simpl in Hl; lia|].
        inversion E; subst. inversion Hm2; subst.
        apply Hmax with (m2 := m2); auto. simpl in Hl. lia.
      * exists [], (c :: s). repeat split; auto; [constructor|].
        intros [|c2 m2] s2 E Hm2 Hl; [simpl in Hl; lia|].
        inversion E; subst. inversion Hm2; subst.
        destruct (k s2) eqn:Hk2; auto.
        exfalso. apply (@star_complete R a k m2 s2); auto.
        rewrite Hk2. discriminate.
    + exists [], (c :: s). repeat split; auto; [constructor|].
      intros [|c2 m2] s2 E Hm2 Hl; [simpl in Hl; lia|].
      inversion E; subst. inversion Hm2; subst. congruence.
Qed.

Lemma re_search_here r s mo :
  match_here r s = Some mo -> re_search r s = Some mo.
Proof. intros H. destruct s; simpl; now rewrite H. Qed.


Lemma match_here_prefixed l v post :
  valid_id v ->
  match_here (Seq (lits l) id_group) (l ++ v ++ post) = Some (MkMatch (Some v)).
Proof.
  intros Hv. unfold match_here. cbn [run].
  rewrite run_lits. now rewrite run_id_group.
Qed.

Lemma app_inv_length {A} (a b c d : list A) :
  a ++ b = c ++ d -> length a = length c -> a = c /\ b = d.
Proof.
  revert c. induction a as [|x a IH]; intros [|y c] E Hl;
    simpl in *; try discriminate; auto.
  inversion E; subst. destruct (IH c) as [-> ->]; auto.
Qed.

Lemma match_here_watch mid v post :
  no_newline mid -> valid_id v ->
  (forall mid' v' post',
      mid ++ lit "v=" ++ v ++ post = mid' ++ lit "v=" ++ v' ++ post' ->
      no_newline mid' -> valid_id v' -> length mid' <= length mid) ->
  match_here pat_watch
             (lit "youtube.com/watch?" ++ mid ++ lit "v=" ++ v ++ post)
  = Some (MkMatch (Some v)).
Proof.
  intros Hmid Hv Hlast. unfold match_here, pat_watch. cbn [run].
  rewrite run_lits. cbn [run].
  apply star_greedy.
  - now apply all_match_dot.
  - rewrite run_lits. now rewrite run_id_group.
  - intros m2 s2 E Hm2 Hlen.
    match goal with |- ?k = None => destruct k as [y|] eqn:Hk end; auto.
    apply run_sound in Hk. destruct Hk as (e & s3 & g3 & -> & He & Hk).
    apply matches_lits_inv in He. destruct He as [-> ->].
    apply run_sound in Hk. destruct Hk as (v' & post' & g4 & -> & Hv' & _).
    apply matches_id_group_inv in Hv'. destruct Hv' as [Hv' _].
    apply all_match_dot in Hm2.
    specialize (Hlast m2 v' post' E Hm2 Hv'). lia.
Qed.


(** Two pieces of URL text of one shape that is not the watch form have the
    same length. *)
Lemma shaped_length sh m v m' v' :
  sh <> Watch -> shaped sh m v -> valid_id v -> shaped sh m' v' -> valid_id v' ->
  length m' = length m.
Proof.
  intros Hsh Hs [Hl _] Hs' [Hl' _].
  destruct Hs; inversion Hs'; subst; try contradiction;
    rewrite !length_app; lia.
Qed.

(** A match at the start of the text is the longest text of the shape
    there. *)
Lemma match_here_longest sh s mo :
  match_here (pattern_of sh) s = Some mo ->
  exists m post v,
    s = m ++ post /\ shaped sh m v /\ valid_id v /\ group1 mo = Some v /\
    forall m' post' v',
      s = m' ++ post' -> shaped sh m' v' -> valid_id v' ->
      length m' <= length m.
Proof.
  intros H. destruct (shape_eq_dec sh Watch) as [->|Hsh].
  - unfold match_here in H. unfold_patterns in H. cbn [run] in H.
    apply run_lits_inv in H. destruct H as (rest & -> & H). cbn [run] in H.
    apply star_longest in H. destruct H as (mid & s' & -> & Hmid & H & Hmax).
    apply run_lits_inv in H. destruct H as (s'' & -> & H).
    apply run_sound in H. destruct H as (v & post & g & -> & Hv & H).
    apply matches_id_group_inv in Hv. destruct Hv as [Hv ->].
    inversion H; subst mo. apply all_match_dot in Hmid.
    exists (lit "youtube.com/watch?" ++ mid ++ lit "v=" ++ v), post, v.
    repeat split; try apply Hv.
    + now rewrite <- !app_assoc.
    + now constructor.
    + intros m' post' v' E Hs' Hv'. inversion Hs' as [|mid' v0 Hmid'| | |]; subst.
      rewrite <- !app_assoc in E. apply app_inv_head in E.
      destruct (le_lt_dec (length mid') (length mid)) as [Hle|Hlt].
      * rewrite !length_app. pose proof (proj1 Hv). pose proof (proj1 Hv'). lia.
      * exfalso. apply all_match_dot in Hmid'.
        specialize (Hmax mid' (lit "v=" ++ v' ++ post') E Hmid' Hlt).
        rewrite run_lits, run_id_group in Hmax by exact Hv'. discriminate.
  - apply match_here_sound in H. destruct H as (m & post & -> & Hm).
    apply matches_pattern in Hm. destruct Hm as (v & Hg & Hs & Hv).
    exists m, post, v. repeat split; try apply Hv; auto.
    intros m' post' v' _ Hs' Hv'.
    rewrite (shaped_length Hsh Hs Hv Hs' Hv'). lia.
Qed.

(** What [re.search] reports is the leftmost, longest occurrence. *)
Lemma re_search_captured sh s mo :
  re_search (pattern_of sh) s = Some mo ->
  exists v, group1 mo = Some v /\ captured sh s v.
Proof.
  induction s as [|c s IH]; simpl.
  - destruct (match_here (pattern_of sh) []) as [mo'|] eqn:Hh; [|discriminate].
    intros H; inversion H; subst mo'. apply match_here_longest in Hh.
    destruct Hh as (m & post & v & E & Hs & Hv & Hg & Hmax).
    exists v. split; auto. exists [], m, post.
    split; [exact E|]. split; [exact Hs|]. split; [exact Hv|].
    intros [|c' pre'] m' post' v' E' Hs' Hv'; [|left; simpl; lia].
    right. split; auto. apply (Hmax m' post' v'); auto.
  - destruct (match_here (pattern_of sh) (c :: s)) as [mo'|] eqn:Hh.
    + intros H; inversion H; subst mo'. apply match_here_longest in Hh.
      destruct Hh as (m & post & v & E & Hs & Hv & Hg & Hmax).
      exists v. split; auto. exists [], m, post.
      split; [exact E|]. split; [exact Hs|]. split; [exact Hv|].
      intros [|c' pre'] m' post' v' E' Hs' Hv'; [|left; simpl; lia].
      right. split; auto. apply (Hmax m' post' v'); auto.
    + intros H. destruct (IH H) as (v & Hg & pre & m & post & E & Hs & Hv & Hll).
      exists v. split; auto. exists (c :: pre), m, post.
      split; [simpl; now rewrite E|]. split; [exact Hs|]. split; [exact Hv|].
      intros [|c' pre'] m' post' v' E' Hs' Hv'.
      * exfalso. simpl in E'.
        assert (Hm : matches (pattern_of sh) m' None (Some v'))
          by (apply matches_pattern; eauto).
        apply (match_here_complete post') in Hm. rewrite <- E' in Hm.
        contradiction.
      * simpl in E'. inversion E'; subst c'.
        destruct (Hll pre' m' post' v') as [Hlt|[Heq Hle]]; auto.
        -- left. simpl. lia.
        -- right. simpl. split; auto.
Qed.

Lemma captured_contains sh s v : captured sh s v -> contains sh s v.
Proof.
  intros (pre & m & post & E & Hs & Hv & _). exists pre, m, post. auto.
Qed.

(** ** The Identifier Resolver *)

Lemma patterns_shapes : patterns = map pattern_of shapes.
Proof. reflexivity. Qed.

Lemma re_search_none_shape sh s :
  re_search (pattern_of sh) s = None -> ~ has_shape sh s.
Proof.
  intros H Hs. apply occurs_has_shape, re_search_occurs in Hs. auto.
Qed.

Lemma re_search_some_shape sh s mo :
  re_search (pattern_of sh) s = Some mo ->
  exists v, group mo = Ok v /\ captured sh s v.
Proof.
  intros H. apply re_search_captured in H. destruct H as (v & Hg & Hc).
  exists v. unfold group. now rewrite Hg.
Qed.

(** The loop returns the capture of the first pattern, in list order, that
    occurs in the input, and runs the code after the loop when none does. *)
Lemma for_patterns_spec shs s rest :
  (exists before sh after v,
      shs = before ++ sh :: after /\
      (forall sh', In sh' before -> ~ has_shape sh' s) /\
      captured sh s v /\
      for_patterns (map pattern_of shs) s rest = ret v)
  \/ ((forall sh, In sh shs -> ~ has_shape sh s) /\
      for_patterns (map pattern_of shs) s rest = rest).
Proof.
  induction shs as [|sh shs IH]; simpl.
  - right. split; auto.
  - destruct (re_search (pattern_of sh) s) as [mo|] eqn:E.
    + left. apply re_search_some_shape in E. destruct E as (v & Hg & Hc).
      exists [], sh, shs, v. rewrite Hg. repeat split; auto.
    + apply re_search_none_shape in E.
      destruct IH as [(before & sh1 & after & v & -> & Hb & Hc & Hr)|[Hn Hr]].
      * left. exists (sh :: before), sh1, after, v. repeat split; auto.
        intros sh' [<-|Hin]; auto.
      * right. split; auto. intros sh' [<-|Hin]; auto.
Qed.


Lemma shape_in_shapes sh : In sh shapes.
Proof. destruct sh; simpl; auto 6. Qed.

(** The resolver, case by case. *)
Lemma extract_video_id_cases s :
  (exists sh v, earliest sh s /\ captured sh s v /\ extract_video_id s = ret v)
  \/ ((forall sh, ~ has_shape sh s) /\ valid_id s /\ extract_video_id s = ret s)
  \/ (~ accepted s /\ extract_video_id s = invalid_input s).
Proof.
  unfold extract_video_id. rewrite patterns_shapes.
  destruct (for_patterns_spec shapes s
              (match re_fullmatch pat_bare s with
               | Some _ => ret s
               | None =>
                   print_err (lit "Error: Could not extract video ID from: " ++ s) ;;;
                   sys_exit 1
               end))
    as [(before & sh & after & v & Hsh & Hb & Hc & Hr)|[Hn Hr]].
  - left. exists sh, v. split; [exists before, after; auto | auto].
  - right. rewrite Hr.
    assert (Hn' : forall sh, ~ has_shape sh s)
      by (intros sh; apply Hn, shape_in_shapes).
    destruct (re_fullmatch pat_bare s) as [mo|] eqn:E.
    + left. split; [exact Hn'|]. split; [|reflexivity].
      apply re_fullmatch_bare. rewrite E. discriminate.
    + right. split; [|reflexivity].
      intros [[sh Hs]|Hv]; [now apply (Hn' sh)|].
      apply re_fullmatch_bare in Hv. contradiction.
Qed.


Lemma contains_valid sh s v : contains sh s v -> valid_id v.
Proof. intros (pre & m & post & _ & _ & Hv). exact Hv. Qed.

(** C1. [extract_video_id] returns an identifier of eleven identifier
    characters exactly when the input contains one of the five URL shapes
    or is, as a whole, a bare identifier.  What it returns is the
    identifier captured under the first shape of the pattern list that
    occurs, or the input itself when none occurs.  On every other input it
    writes a diagnostic that quotes the input to the error stream and exits
    with status 1. *)
Theorem extract_video_id_accepts s :
  ((exists v, extract_video_id s = ret v /\ valid_id v) <-> accepted s)
  /\ (forall v, extract_video_id s = ret v ->
        (exists sh, earliest sh s /\ captured sh s v)
        \/ ((forall sh, ~ has_shape sh s) /\ v = s))
  /\ (extract_video_id s = invalid_input s <-> ~ accepted s).
Proof.
  destruct (extract_video_id_cases s)
    as [(sh & v & He & Hc & Hr)|[(Hn & Hv & Hr)|(Hn & Hr)]]; rewrite Hr.
  - pose proof (captured_contains Hc) as Hc'.
    assert (Ha : accepted s) by (left; exists sh, v; exact Hc').
    split; [|split].
    + split; auto. intros _. exists v. split; auto.
      eapply contains_valid; eauto.
    + intros v' E. inversion E; subst v'. left. eauto.
    + split; [discriminate | contradiction].
  - assert (Ha : accepted s) by (right; exact Hv).
    split; [|split].
    + split; eauto.
    + intros v' E. inversion E; subst v'. right. auto.
    + split; [discriminate | contradiction].
  - split; [|split].
    + split; [|contradiction]. intros (v & E & _). discriminate.
    + intros v' E. discriminate.
    + split; auto.
Qed.

Lemma valid_idb_spec v : valid_idb v = true <-> valid_id v.
Proof.
  unfold valid_idb, valid_id.
  rewrite andb_true_iff, Nat.eqb_eq, forallb_forall, Forall_forall.
  split; intros [Hl Hv]; split; auto; intros c Hc; apply id_chars_spec; auto.
Qed.

Lemma extract_video_id_accepts_witness :
  exists v, extract_video_id (lit "https://youtu.be/dQw4w9WgXcQ?t=42") = ret v
            /\ valid_id v.
Proof.
  apply (proj1 (extract_video_id_accepts _)).
  left. exists Short, (lit "dQw4w9WgXcQ"), (lit "https://").
  exists (lit "youtu.be/" ++ lit "dQw4w9WgXcQ"), (lit "?t=42").
  split; [reflexivity|]. split; [constructor|].
  apply valid_idb_spec. reflexivity.
Defined.

(** The five URL shapes, a bare identifier, and an input that is neither. *)
Example resolves_short_link :
  extract_video_id (lit "https://youtu.be/dQw4w9WgXcQ") = ret (lit "dQw4w9WgXcQ").
Proof. vm_compute. reflexivity. Qed.

Example resolves_watch_url :
  extract_video_id (lit "https://www.youtube.com/watch?feature=share&v=dQw4w9WgXcQ&t=1s")
  = ret (lit "dQw4w9WgXcQ").
Proof. vm_compute. reflexivity. Qed.

Example resolves_embed_url :
  extract_video_id (lit "https://www.youtube.com/embed/dQw4w9WgXcQ")
  = ret (lit "dQw4w9WgXcQ").
Proof. vm_compute. reflexivity. Qed.

Example resolves_v_url :
  extract_video_id (lit "https://www.youtube.com/v/dQw4w9WgXcQ")
  = ret (lit "dQw4w9WgXcQ").
Proof. vm_compute. reflexivity. Qed.

Example resolves_shorts_url :
  extract_video_id (lit "https://www.youtube.com/shorts/dQw4w9WgXcQ")
  = ret (lit "dQw4w9WgXcQ").
Proof. vm_compute. reflexivity. Qed.

Example resolves_bare_id :
  extract_video_id (lit "dQw4w9WgXcQ") = ret (lit "dQw4w9WgXcQ").
Proof. vm_compute. reflexivity. Qed.

Example rejects_other_text :
  extract_video_id (lit "not a video")
  = ([Stderr (lit "Error: Could not extract video ID from: not a video" ++ [nl])],
     Raise (SystemExit 1)).
Proof. vm_compute. reflexivity. Qed.

(** The greedy star at work: of two [v=] parameters on one line the watch
    pattern captures the last. *)
Example watch_takes_last_v :
  extract_video_id (lit "https://www.youtube.com/watch?v=AAAAAAAAAAA&v=BBBBBBBBBBB")
  = ret (lit "BBBBBBBBBBB").
Proof. vm_compute. reflexivity. Qed.

(** The order of the pattern list decides between shapes, wherever they
    stand in the input. *)
Example short_link_before_embed :
  extract_video_id (lit "youtube.com/embed/AAAAAAAAAAA youtu.be/BBBBBBBBBBB")
  = ret (lit "BBBBBBBBBBB").
Proof. vm_compute. reflexivity. Qed.




(** ** The Transcript Fetcher *)


Lemma dict_get_none code d :
  dict_get code d = None <-> (forall t, In t d -> language_code t <> code).
Proof.
  unfold dict_get. split.
  - intros H t Hin E. apply (find_none _ _ H) in Hin.
    unfold str_eqb in Hin.
    destruct (list_eq_dec N.eq_dec (language_code t) code);
      [discriminate | contradiction].
  - intros H. destruct (find _ d) as [t|] eqn:E; auto.
    apply find_some in E. destruct E as [Hin He]. unfold str_eqb in He.
    destruct (list_eq_dec N.eq_dec (language_code t) code);
      [|discriminate].
    now destruct (H t Hin).
Qed.


(** The lookups of [select_transcript], as a decision table. *)
Lemma select_transcript_table tl :
  select_transcript tl =
  match dict_get en (manually_created tl) with
  | Some t => ([FindManuallyCreated [en]], Ret t)
  | None =>
      match dict_get en (generated tl) with
      | Some t => ([FindManuallyCreated [en]; FindGenerated [en]], Ret t)
      | None =>
          match manually_created tl ++ generated tl with
          | t :: _ =>
              ([FindManuallyCreated [en]; FindGenerated [en]; NextIter;
                Translate (language_code t) en],
               result_of (lift (translate t en)))
          | [] =>
              ([FindManuallyCreated [en]; FindGenerated [en]; NextIter],
               Raise (Exception []))
          end
      end
  end.
Proof.
  unfold select_transcript, find_manually_created_transcript,
    find_generated_transcript, next_iter. fold en.
  cbn [find_transcript_in find_in_dicts].
  destruct (dict_get en (manually_created tl)) as [t|]; [reflexivity|].
  destruct (dict_get en (generated tl)) as [t|]; [reflexivity|].
  destruct (manually_created tl ++ generated tl) as [|t rest]; [reflexivity|].
  unfold call, try_except, bind, emit, lift, ret, raise. cbn.
  match goal with
  | |- context [translate ?a ?b] => destruct (translate a b)
  end; reflexivity.
Qed.




Lemma fold_left_join (sep : str) (ps : list str) : forall p,
  fold_left (fun acc q => acc ++ sep ++ q) ps p
  = p ++ concat (map (fun q => sep ++ q) ps).
Proof.
  induction ps as [|q ps IH]; intros p; simpl.
  - now rewrite app_nil_r.
  - rewrite IH. now rewrite <- !app_assoc.
Qed.

Lemma join_spaced parts : join (lit " ") parts = spaced parts.
Proof.
  destruct parts as [|p ps]; [reflexivity|].
  unfold join. rewrite fold_left_join.
  revert p. induction ps as [|q ps IH]; intros p.
  - simpl. apply app_nil_r.
  - change (spaced (p :: q :: ps)) with (p ++ lit " " ++ spaced (q :: ps)).
    rewrite <- IH. simpl. now rewrite <- ?app_assoc.
Qed.

(** Unfold the monad and compute. *)
Ltac run_monad :=
  unfold call, try_except, bind, emit, lift, ret, raise, print_err, print,
    sys_exit;
  cbn.

(** [fetch_transcript], outcome by outcome. *)
Lemma fetch_transcript_table w video_id :
  fetch_transcript w video_id =
  match list_transcripts w video_id with
  | Err e =>
      (ListTranscripts video_id :: transcript_error e, Raise (SystemExit 1))
  | Ok tl =>
      match select_transcript tl with
      | (ts, Raise (Exception e)) =>
          (ListTranscripts video_id :: ts ++ transcript_error e,
           Raise (SystemExit 1))
      | (ts, Raise (SystemExit code)) =>
          (ListTranscripts video_id :: ts, Raise (SystemExit code))
      | (ts, Ret t) =>
          match entries t with
          | Ok es =>
              (ListTranscripts video_id
                 :: ts ++ [Fetch (language_code t) (is_generated t)],
               Ret (join (lit " ") (map text es)))
          | Err e =>
              (ListTranscripts video_id
                 :: ts ++ Fetch (language_code t) (is_generated t)
                 :: transcript_error e,
               Raise (SystemExit 1))
          end
      end
  end.
Proof.
  unfold fetch_transcript, transcript_error.
  destruct (list_transcripts w video_id) as [tl|e]; run_monad;
    [|now rewrite <- ?app_assoc].
  destruct (select_transcript tl) as [ts [t|[e|code]]]; run_monad;
    rewrite ?app_nil_r, <- ?app_assoc; try reflexivity.
  destruct (entries t) as [es|e]; run_monad;
    rewrite ?app_nil_r, <- ?app_assoc; reflexivity.
Qed.

(** C7. [fetch_transcript] returns a text exactly when the track list is
    obtained, a track is selected and its entries are fetched; the text is
    then the texts of the entries, in their order, with one space between
    neighbours, whatever their timing.  Three entries [Hello], [world],
    [!] give [Hello world !]. *)
Theorem fetch_transcript_joins w video_id :
  (forall s,
      result_of (fetch_transcript w video_id) = Ret s <->
      exists tl t es,
        list_transcripts w video_id = Ok tl /\
        result_of (select_transcript tl) = Ret t /\
        entries t = Ok es /\
        s = spaced (map text es))
  /\ (forall tl t a b c d e f,
         list_transcripts w video_id = Ok tl ->
         result_of (select_transcript tl) = Ret t ->
         entries t = Ok [MkSnippet (lit "Hello") a b;
                         MkSnippet (lit "world") c d;
                         MkSnippet (lit "!") e f] ->
         result_of (fetch_transcript w video_id) = Ret (lit "Hello world !")).
Proof.
  assert (H : forall tl t es,
             list_transcripts w video_id = Ok tl ->
             result_of (select_transcript tl) = Ret t ->
             entries t = Ok es ->
             result_of (fetch_transcript w video_id)
             = Ret (spaced (map text es))).
  { intros tl t es Hl Hs He. rewrite fetch_transcript_table, Hl.
    destruct (select_transcript tl) as [ts o]. simpl in Hs. subst o.
    rewrite He. simpl. now rewrite join_spaced. }
  split.
  - intros s. split.
    + rewrite fetch_transcript_table.
      destruct (list_transcripts w video_id) as [tl|e]; [|discriminate].
      destruct (select_transcript tl) as [ts [t|[e|code]]] eqn:Hs;
        try discriminate.
      destruct (entries t) as [es|e] eqn:He; [|discriminate].
      simpl. intros E. inversion E. exists tl, t, es.
      rewrite Hs, join_spaced. auto.
    + intros (tl & t & es & Hl & Hs & He & ->). eapply H; eauto.
  - intros tl t a b c d e f Hl Hs He. apply (H _ _ _ Hl Hs He).
Qed.

Lemma fetch_transcript_joins_witness :
  let tl := MkTranscriptList [track en false [lit "Hello"; lit "world"; lit "!"]] [] in
  let w := MkWorld (fun _ => None) (fun _ => Err []) (fun _ => [])
                   (fun s => Ok s) (fun _ => Ok []) (fun _ => Err [])
                   (fun _ _ => Err []) (fun _ => Ok tl) (Ok tt)
                   (fun _ => Err []) in
  result_of (fetch_transcript w (lit "dQw4w9WgXcQ")) = Ret (lit "Hello world !").
Proof.
  intros tl w.
  apply (proj2 (fetch_transcript_joins w (lit "dQw4w9WgXcQ")) tl
               (track en false [lit "Hello"; lit "world"; lit "!"])
               (QArith_base.Qmake 0 1) (QArith_base.Qmake 1 1)
               (QArith_base.Qmake 0 1) (QArith_base.Qmake 1 1)
               (QArith_base.Qmake 0 1) (QArith_base.Qmake 1 1));
    reflexivity.
Defined.

(** ** The Summarizer *)

#[local] Arguments truncated : simpl never.
#[local] Arguments completion : simpl never.
#[local] Arguments prompt : simpl never.

(** [summarize], outcome by outcome: the only request it sends carries the
    prepared transcript. *)
Lemma summarize_table w t :
  summarize w t =
  match anthropic_client w with
  | Err e => ([], Raise (Exception e))
  | Ok _ =>
      ([MessagesCreate (completion (truncated t))],
       match messages_create w (completion (truncated t)) with
       | Err e => Raise (Exception e)
       | Ok msg => result_of (lift (first_text msg))
       end)
  end.
Proof.
  unfold summarize.
  destruct (anthropic_client w) as [[]|e]; run_monad; [|reflexivity].
  destruct (messages_create w _) as [msg|e]; run_monad; [|reflexivity].
  destruct (first_text msg); reflexivity.
Qed.

Lemma slice_to_prefix n (s : str) : exists rest, s = slice_to n s ++ rest.
Proof.
  exists (skipn (Z.to_nat n) s). unfold slice_to.
  now rewrite firstn_skipn.
Qed.

Lemma len_slice_to n (s : str) :
  (0 <= n <= len s)%Z -> len (slice_to n s) = n.
Proof.
  unfold len, slice_to. intros H. rewrite length_firstn. lia.
Qed.

(** C2. Once the client is made, [summarize] dispatches exactly one
    completion request, whatever the service answers, and the transcript
    that request carries, at the end of its one user message, is the
    prepared one: for a transcript of more than 100,000 characters its
    first 100,000 characters followed by a newline and
    [[transcript truncated]]; for a transcript of at most 100,000
    characters the transcript itself.  No other request is dispatched. *)
Theorem summarize_truncates w t :
  let request_with x :=
    MessagesCreate
      (MkCompletion (lit "claude-sonnet-4-20250514") 1024
         [MkChat (lit "user")
            (lit "Below is a transcript of a YouTube video. "
             ++ lit "Please provide a structured summary with:" ++ [nl]
             ++ lit "1. A one-line TLDR" ++ [nl]
             ++ lit "2. Key points (bulleted)" ++ [nl]
             ++ lit "3. A brief conclusion" ++ [nl; nl]
             ++ lit "Keep the summary concise and readable." ++ [nl; nl]
             ++ lit "TRANSCRIPT:" ++ [nl] ++ x)]) in
  (anthropic_client w = Ok tt ->
   ((100000 < len t)%Z ->
    trace (summarize w t)
    = [request_with (slice_to 100000 t ++ nl :: lit "[transcript truncated]")])
   /\ ((len t <= 100000)%Z -> trace (summarize w t) = [request_with t]))
  /\ (forall req,
         In (MessagesCreate req) (trace (summarize w t)) ->
         req = MkCompletion (lit "claude-sonnet-4-20250514") 1024
                            [MkChat (lit "user") (prompt (truncated t))])
  /\ ((100000 < len t)%Z ->
      truncated t = slice_to 100000 t ++ nl :: lit "[transcript truncated]"
      /\ len (slice_to 100000 t) = 100000%Z
      /\ exists rest, t = slice_to 100000 t ++ rest)
  /\ ((len t <= 100000)%Z -> truncated t = t).
Proof.
  intros request_with.
  assert (Hover : (100000 < len t)%Z ->
                  truncated t
                  = slice_to 100000 t ++ nl :: lit "[transcript truncated]").
  { intros H. unfold truncated, max_chars.
    now replace (len t >? 100000)%Z with true by (symmetry; lia). }
  assert (Hwithin : (len t <= 100000)%Z -> truncated t = t).
  { intros H. unfold truncated, max_chars.
    now replace (len t >? 100000)%Z with false by (symmetry; lia). }
  split; [|split; [|split]].
  - intros Hc. rewrite summarize_table, Hc. cbn [trace fst].
    split; intros H.
    + now rewrite (Hover H).
    + now rewrite (Hwithin H).
  - rewrite summarize_table. intros req.
    destruct (anthropic_client w); simpl; [|contradiction].
    intros [E|[]]. now inversion E.
  - intros H. split; [now apply Hover|]. split.
    + apply len_slice_to. lia.
    + apply slice_to_prefix.
  - exact Hwithin.
Qed.

(** The 150,000-character transcript of the specification, in a world in
    which the completion service refuses the request. *)
Lemma summarize_truncates_witness :
  let t := repeat 97%N (Z.to_nat 150000) in
  (100000 < len t)%Z /\
  trace (summarize no_completion t)
  = [MessagesCreate
       (completion (slice_to 100000 t ++ nl :: lit "[transcript truncated]"))].
Proof.
  intros t.
  assert (H : (100000 < len t)%Z).
  { unfold len, t. rewrite repeat_length. lia. }
  split; [exact H|].
  exact (proj1 (proj1 (summarize_truncates no_completion t) eq_refl) H).
Defined.

(** ** The Metadata Fetcher *)

Lemma fetch_video_title_table w video_id :
  fetch_video_title w video_id =
  ([UrlOpen (GET (oembed_url video_id)) None],
   Ret (match title_lookup w video_id with
        | Ok title => title
        | Err _ => VStr video_id
        end)).
Proof.
  unfold fetch_video_title, title_lookup. fold (oembed_url video_id).
  destruct (urlopen w _ None) as [resp|e]; run_monad; [|reflexivity].
  destruct (read resp) as [raw|e]; run_monad; [|reflexivity].
  destruct (json_loads w raw) as [data|e]; run_monad; [|reflexivity].
  destruct (getitem data _); reflexivity.
Qed.









(** ** The Note Publisher *)

(** *** Trimming *)

Lemma lstrip_spec s :
  exists l, s = l ++ lstrip s /\ spaces l /\ starts_clean (lstrip s).
Proof.
  induction s as [|c s (l & E & Hl & Hc)]; simpl.
  - exists []. repeat split; [constructor | intros ? ? H; discriminate].
  - destruct (isspace c) eqn:Hs.
    + exists (c :: l). simpl. rewrite <- E. repeat split; auto.
      constructor; auto.
    + exists []. repeat split; [constructor|].
      intros c' r H. now inversion H; subst.
Qed.

Lemma lstrip_snoc a c :
  isspace c = false -> lstrip (a ++ [c]) = lstrip a ++ [c].
Proof.
  intros Hc. induction a as [|x a IH]; simpl.
  - now rewrite Hc.
  - destruct (isspace x); auto.
Qed.

Lemma rstrip_spec s :
  exists t, s = rstrip s ++ t /\ spaces t /\ ends_clean (rstrip s).
Proof.
  unfold rstrip. destruct (lstrip_spec (rev s)) as (l & E & Hl & Hc).
  exists (rev l). repeat split.
  - rewrite <- rev_app_distr, <- E. symmetry. apply rev_involutive.
  - now apply Forall_rev.
  - intros r c H. apply (Hc c (rev r)).
    rewrite <- (rev_involutive (lstrip (rev s))), H.
    now rewrite rev_app_distr.
Qed.

Lemma rstrip_starts_clean s : starts_clean s -> starts_clean (rstrip s).
Proof.
  intros H. destruct s as [|c s].
  - intros c r E. discriminate.
  - assert (Hc : isspace c = false) by (eapply H; eauto).
    unfold rstrip. simpl. rewrite lstrip_snoc by exact Hc.
    rewrite rev_app_distr. simpl. intros c' r E. now inversion E; subst.
Qed.

Lemma strip_trimmed s : trimmed_of s (strip s).
Proof.
  unfold strip. destruct (lstrip_spec s) as (l & El & Hl & Hc).
  destruct (rstrip_spec (lstrip s)) as (t & Et & Ht & He).
  exists l, t. repeat split; auto.
  - now rewrite <- Et.
  - now apply rstrip_starts_clean.
Qed.

(** *** The note path *)

Lemma forbidden_spec c : atom_matches forbidden c = true <-> is_forbidden c.
Proof.
  unfold is_forbidden, forbidden_chars. simpl. unfold bslash, dquote.
  rewrite !orb_true_iff, !andb_true_iff, !N.leb_le.
  intuition (try lia; try discriminate).
Qed.

Lemma sanitize_char_spec c :
  sanitize_char c = if atom_matches forbidden c then hyphen else c.
Proof.
  unfold sanitize_char.
  destruct (in_dec N.eq_dec c forbidden_chars) as [Hin|Hin];
    destruct (atom_matches forbidden c) eqn:Hm; try reflexivity.
  - apply (proj2 (forbidden_spec c)) in Hin. congruence.
  - apply (proj1 (forbidden_spec c)) in Hm. contradiction.
Qed.

Lemma re_sub_forbidden t :
  re_sub_atom forbidden (lit "-") t = map sanitize_char t.
Proof.
  unfold re_sub_atom. induction t as [|c t IH]; [reflexivity|].
  cbn [flat_map map]. rewrite IH, sanitize_char_spec.
  destruct (atom_matches forbidden c); reflexivity.
Qed.

(** [send_to_obsidian], step by step: nothing is written or requested
    before the upload. *)
Lemma send_to_obsidian_table w title video_id summary :
  send_to_obsidian w title video_id summary =
  match environ w (lit "OBSIDIAN_REST_API_KEY") with
  | None | Some [] => missing_credential
  | Some api_key =>
      match int_of_str w (environ_get w (lit "OBSIDIAN_REST_PORT") (lit "27124")) with
      | Err e => ([], Raise (Exception e))
      | Ok port =>
          match safe_title title with
          | Err e => ([], Raise (Exception e))
          | Ok safe =>
              let path :=
                note_path (environ_get w (lit "OBSIDIAN_SUMMARY_FOLDER")
                                      (lit "transcripts/videos")) safe in
              match quote w path with
              | Err e => ([], Raise (Exception e))
              | Ok quoted =>
                  match encode_utf8 w (note_content video_id summary) with
                  | Err e => ([], Raise (Exception e))
                  | Ok data =>
                      upload w (put_request (vault_url port quoted) api_key data)
                             path
                  end
              end
          end
      end
  end.
Proof.
  unfold send_to_obsidian, missing_credential.
  destruct (environ w (lit "OBSIDIAN_REST_API_KEY")) as [[|c key]|];
    try reflexivity.
  destruct (int_of_str w _) as [port|e]; [|reflexivity].
  destruct (safe_title title) as [safe|e]; [|reflexivity].
  unfold lift at 1 2. unfold bind at 1 2. unfold ret.
  destruct (quote w _) as [quoted|e]; [|reflexivity].
  destruct (encode_utf8 w _) as [data|e]; [|reflexivity].
  unfold lift, bind, ret, vault_url.
  destruct (upload w _ _) as [t o]. reflexivity.
Qed.

(** C8. A title that is a string is sanitized by replacing every
    backslash, slash, colon, star, question mark, double quote, angle
    bracket and bar with a hyphen, leaving every other character as it is,
    and then removing the surrounding whitespace; the note is uploaded
    under the path [<folder>/<sanitized title>.md].  The title
    [My: Video? <Test>] gives the file name [My- Video- -Test-.md]. *)
Theorem note_path_sanitized w t video_id summary :
  let safe := strip (map sanitize_char t) in
  let folder := environ_get w (lit "OBSIDIAN_SUMMARY_FOLDER")
                            (lit "transcripts/videos") in
  safe_title (VStr t) = Ok safe
  /\ trimmed_of (map sanitize_char t) safe
  /\ (forall c, (is_forbidden c -> sanitize_char c = hyphen)
                /\ (~ is_forbidden c -> sanitize_char c = c))
  /\ (forall c key port quoted data,
         environ w (lit "OBSIDIAN_REST_API_KEY") = Some (c :: key) ->
         int_of_str w (environ_get w (lit "OBSIDIAN_REST_PORT") (lit "27124"))
         = Ok port ->
         quote w (folder ++ lit "/" ++ safe ++ lit ".md") = Ok quoted ->
         encode_utf8 w (note_content video_id summary) = Ok data ->
         send_to_obsidian w (VStr t) video_id summary
         = upload w (put_request (vault_url port quoted) (c :: key) data)
                  (folder ++ lit "/" ++ safe ++ lit ".md"))
  /\ (safe_title (VStr (lit "My: Video? <Test>")) = Ok (lit "My- Video- -Test-")
      /\ note_path (lit "transcripts/videos") (lit "My- Video- -Test-")
         = lit "transcripts/videos/My- Video- -Test-.md").
Proof.
  intros safe folder. split; [|split; [|split; [|split]]].
  - unfold safe_title, safe. now rewrite re_sub_forbidden.
  - apply strip_trimmed.
  - intros c. unfold sanitize_char, is_forbidden.
    destruct (in_dec N.eq_dec c forbidden_chars); split; intros; tauto.
  - intros c key port quoted data Hkey Hport Hq He.
    rewrite send_to_obsidian_table, Hkey, Hport.
    unfold safe_title. rewrite re_sub_forbidden.
    fold safe. fold folder. unfold note_path. cbv zeta.
    now rewrite Hq, He.
  - split; reflexivity.
Qed.

Lemma note_path_sanitized_witness :
  let w := store_accepts in
  let t := lit " My: Video? <Test> " in
  let path := lit "transcripts/videos/My- Video- -Test-.md" in
  send_to_obsidian w (VStr t) (lit "dQw4w9WgXcQ") (lit "TLDR")
  = upload w (put_request (vault_url 27124 path) (lit "secret") []) path.
Proof.
  intros w t path.
  exact (proj1 (proj2 (proj2 (proj2
           (note_path_sanitized w t (lit "dQw4w9WgXcQ") (lit "TLDR")))))
           115%N (lit "ecret") 27124%Z path [] eq_refl eq_refl eq_refl eq_refl).
Defined.

(** ** The Orchestrator *)

#[local] Arguments str_of_int : simpl never.
#[local] Arguments lit : simpl never.

(** [main], stage by stage. *)
Lemma main_table w a :
  main w a =
  match extract_video_id (url a) with
  | (t1, Raise e) => (t1, Raise e)
  | (t1, Ret video_id) =>
      match fetch_transcript w video_id with
      | (t3, Raise e) => (t1 ++ before_transcript w video_id ++ t3, Raise e)
      | (t3, Ret transcript) =>
          match summarize w transcript with
          | (t4, Raise e) =>
              (t1 ++ before_transcript w video_id ++ t3
                  ++ progress_transcript transcript :: t4,
               Raise e)
          | (t4, Ret summary) =>
              let p := publish w a (title_of w video_id) video_id summary in
              (t1 ++ before_transcript w video_id ++ t3
                  ++ progress_transcript transcript :: t4
                  ++ Stdout (summary ++ [nl]) :: trace p,
               result_of p)
          end
      end
  end.
Proof.
  unfold main, before_transcript, progress_id, progress_title,
    progress_transcript.
  destruct (extract_video_id (url a)) as [t1 [video_id|e]]; [|reflexivity].
  cbn [bind]. rewrite fetch_video_title_table. fold (title_of w video_id).
  unfold print_err, print, emit. cbn [bind].
  destruct (fetch_transcript w video_id) as [t3 [transcript|e]];
    cbn [bind app]; [|now rewrite <- ?app_assoc].
  destruct (summarize w transcript) as [t4 [summary|e]];
    cbn [bind app]; [|now rewrite <- ?app_assoc].
  fold (publish w a (title_of w video_id) video_id summary).
  destruct (publish w a (title_of w video_id) video_id summary) as [tp op].
  cbn [trace result_of fst snd app]. now rewrite <- ?app_assoc.
Qed.

Lemma quiet_app t1 t2 : quiet (t1 ++ t2) <-> quiet t1 /\ quiet t2.
Proof. unfold quiet. rewrite forallb_app. apply andb_true_iff. Qed.

Lemma extract_video_id_quiet s : quiet (trace (extract_video_id s)).
Proof.
  destruct (extract_video_id_cases s)
    as [(sh & v & _ & _ & ->)|[(_ & _ & ->)|(_ & ->)]]; reflexivity.
Qed.

Lemma select_transcript_quiet tl : quiet (trace (select_transcript tl)).
Proof.
  rewrite select_transcript_table.
  destruct (dict_get en (manually_created tl)); [reflexivity|].
  destruct (dict_get en (generated tl)); [reflexivity|].
  destruct (manually_created tl ++ generated tl); reflexivity.
Qed.

Lemma fetch_transcript_quiet w video_id :
  quiet (trace (fetch_transcript w video_id)).
Proof.
  rewrite fetch_transcript_table.
  destruct (list_transcripts w video_id) as [tl|e]; [|reflexivity].
  pose proof (select_transcript_quiet tl) as Hq.
  destruct (select_transcript tl) as [ts [t|[e|code]]]; simpl in Hq.
  - destruct (entries t); unfold trace, fst;
      change (?x :: ?l ++ ?r) with ([x] ++ l ++ r);
      rewrite !quiet_app; repeat split; auto.
  - unfold trace, fst. change (?x :: ?l ++ ?r) with ([x] ++ l ++ r).
    rewrite !quiet_app; repeat split; auto.
  - unfold trace, fst. change (?x :: ?l) with ([x] ++ l).
    rewrite !quiet_app; repeat split; auto.
Qed.

Lemma summarize_quiet w t : quiet (trace (summarize w t)).
Proof.
  rewrite summarize_table. destruct (anthropic_client w); reflexivity.
Qed.

Lemma before_transcript_quiet w video_id : quiet (before_transcript w video_id).
Proof. reflexivity. Qed.

Lemma no_upload_app t1 t2 : no_upload (t1 ++ t2) <-> no_upload t1 /\ no_upload t2.
Proof. unfold no_upload. rewrite forallb_app. apply andb_true_iff. Qed.

Lemma quiet_no_upload t : quiet t -> no_upload t.
Proof.
  unfold quiet, no_upload. rewrite !forallb_forall.
  intros H e He. specialize (H e He). now apply andb_true_iff in H.
Qed.

Lemma no_upload_cons e t :
  no_upload (e :: t) <-> is_upload e = false /\ no_upload t.
Proof.
  unfold no_upload. cbn [forallb].
  rewrite andb_true_iff, negb_true_iff. tauto.
Qed.

Ltac no_upload_tac :=
  cbn [trace fst] in *;
  repeat (rewrite no_upload_app || rewrite no_upload_cons);
  repeat split;
  auto using quiet_no_upload, before_transcript_quiet.

Lemma run_process_raise w a t e :
  main w a = (t, Raise e) -> snd (run_process w a) = exit_code e.
Proof. unfold run_process. intros ->. now destruct e. Qed.

Lemma extract_video_id_exit s t e :
  extract_video_id s = (t, Raise e) -> exit_code e = 1%Z.
Proof.
  destruct (extract_video_id_cases s)
    as [(sh & v & _ & _ & ->)|[(_ & _ & ->)|(_ & ->)]];
    intros H; inversion H; reflexivity.
Qed.

Lemma select_transcript_exit tl t e :
  select_transcript tl = (t, Raise e) -> exists msg, e = Exception msg.
Proof.
  rewrite select_transcript_table.
  destruct (dict_get en (manually_created tl)); [discriminate|].
  destruct (dict_get en (generated tl)); [discriminate|].
  destruct (manually_created tl ++ generated tl) as [|t0 rest].
  - intros H. inversion H. eauto.
  - destruct (translate t0 en); intros H; inversion H. eauto.
Qed.

Lemma fetch_transcript_exit w video_id t e :
  fetch_transcript w video_id = (t, Raise e) -> exit_code e = 1%Z.
Proof.
  rewrite fetch_transcript_table.
  destruct (list_transcripts w video_id) as [tl|msg];
    [|intros H; inversion H; reflexivity].
  destruct (select_transcript tl) as [ts [t0|[msg|code]]] eqn:Hs.
  - destruct (entries t0); intros H; inversion H; reflexivity.
  - intros H; inversion H; reflexivity.
  - apply select_transcript_exit in Hs. destruct Hs as [msg Hs]. discriminate.
Qed.

Lemma summarize_exit w transcript t e :
  summarize w transcript = (t, Raise e) -> exit_code e = 1%Z.
Proof.
  rewrite summarize_table.
  destruct (anthropic_client w); [|intros H; inversion H; reflexivity].
  destruct (messages_create w _) as [msg|msg];
    [|intros H; inversion H; reflexivity].
  destruct (first_text msg); intros H; inversion H; reflexivity.
Qed.

Lemma run_process_trace w a :
  exists tb, fst (run_process w a) = trace (main w a) ++ tb /\ no_upload tb.
Proof.
  unfold run_process. destruct (main w a) as [t [[]|[msg|code]]]; simpl.
  - exists []. split; [now rewrite app_nil_r | reflexivity].
  - exists [Traceback msg]. split; reflexivity.
  - exists []. split; [now rewrite app_nil_r | reflexivity].
Qed.

(** C5. Without [OBSIDIAN_REST_API_KEY] in the environment the Note
    Publisher does one thing only: it writes its diagnostic to the error
    stream and exits with status 1; it sends no request.  A run with
    publishing enabled therefore never sends an upload request, and ends
    with exit status 1. *)
Theorem credential_checked_first w :
  environ w (lit "OBSIDIAN_REST_API_KEY") = None ->
  (forall title video_id summary,
      send_to_obsidian w title video_id summary
      = ([Stderr (lit "Error: OBSIDIAN_REST_API_KEY environment variable not set."
                  ++ [nl])],
         Raise (SystemExit 1)))
  /\ (forall a,
         no_obsidian a = false ->
         no_upload (fst (run_process w a)) /\ snd (run_process w a) = 1%Z).
Proof.
  intros Hkey.
  assert (Hsend : forall title video_id summary,
             send_to_obsidian w title video_id summary = missing_credential)
    by (intros; now rewrite send_to_obsidian_table, Hkey).
  split; [exact Hsend|].
  intros a Hpub.
  destruct (run_process_trace w a) as (tb & -> & Htb).
  pose proof (@run_process_raise w a) as Hcode.
  rewrite main_table in *.
  pose proof (extract_video_id_quiet (url a)) as Q1.
  destruct (extract_video_id (url a)) as [t1 [video_id|e]] eqn:E1.
  2: { split; [no_upload_tac|].
       rewrite (Hcode _ _ eq_refl). eapply extract_video_id_exit; eauto. }
  pose proof (fetch_transcript_quiet w video_id) as Q3.
  destruct (fetch_transcript w video_id) as [t3 [transcript|e]] eqn:E3.
  2: { split; [no_upload_tac|].
       rewrite (Hcode _ _ eq_refl). eapply fetch_transcript_exit; eauto. }
  pose proof (summarize_quiet w transcript) as Q4.
  destruct (summarize w transcript) as [t4 [summary|e]] eqn:E4.
  2: { split; [no_upload_tac|].
       rewrite (Hcode _ _ eq_refl). eapply summarize_exit; eauto. }
  unfold publish in *. rewrite Hpub, Hsend in *. simpl negb in *. cbv iota in *.
  unfold missing_credential in *.
  split; [no_upload_tac|].
  now rewrite (Hcode _ _ eq_refl).
Qed.

Lemma credential_checked_first_witness :
  let w := MkWorld (fun _ => None) (fun _ => Ok 27124%Z) (fun _ => [])
                   (fun s => Ok s) (fun _ => Ok []) (fun _ => Err [])
                   (fun _ _ => Ok (MkResponse 204 (Ok [])))
                   (fun _ => Err []) (Ok tt) (fun _ => Err []) in
  environ w (lit "OBSIDIAN_REST_API_KEY") = None /\
  send_to_obsidian w (VStr (lit "A title")) (lit "dQw4w9WgXcQ") (lit "TLDR")
  = ([Stderr (lit "Error: OBSIDIAN_REST_API_KEY environment variable not set."
              ++ [nl])],
     Raise (SystemExit 1)).
Proof.
  intros w. split; [reflexivity|].
  exact (proj1 (credential_checked_first w eq_refl)
               (VStr (lit "A title")) (lit "dQw4w9WgXcQ") (lit "TLDR")).
Defined.

(** ** The Note Publisher: the upload *)

(** [upload], outcome by outcome. *)
Lemma upload_table w req path :
  upload w req path =
  match urlopen w req (Some trusting_context) with
  | Ok resp =>
      if (status resp <? 300)%Z
      then ([UrlOpen req (Some trusting_context); saved path], Ret tt)
      else ([UrlOpen req (Some trusting_context)], Ret tt)
  | Err e =>
      ([UrlOpen req (Some trusting_context); upload_error e],
       Raise (SystemExit 1))
  end.
Proof.
  unfold upload, saved, upload_error.
  destruct (urlopen w req _) as [resp|e]; run_monad.
  - destruct (status resp <? 300)%Z; run_monad; now rewrite <- ?app_assoc.
  - now rewrite <- ?app_assoc.
Qed.



(** ** The Orchestrator: printing before publishing *)

(** C9. In a run in which the Summarizer returns a summary, [main] writes
    the summary to the standard output before the Note Publisher is
    entered: everything that happened before is neither output on the
    standard output nor an upload request, and everything the publisher
    does comes after.  So the summary is on the standard output however the
    publisher ends, also when it ends the process with a failure. *)
Theorem summary_printed_before_publishing
        w a video_id transcript summary t1 t3 t4 :
  extract_video_id (url a) = (t1, Ret video_id) ->
  fetch_transcript w video_id = (t3, Ret transcript) ->
  summarize w transcript = (t4, Ret summary) ->
  let p := publish w a (title_of w video_id) video_id summary in
  exists before,
    quiet before
    /\ main w a = (before ++ Stdout (summary ++ [nl]) :: trace p, result_of p)
    /\ (exists after,
           fst (run_process w a)
           = before ++ Stdout (summary ++ [nl]) :: trace p ++ after)
    /\ (forall e, result_of p = Raise e ->
                  snd (run_process w a) = exit_code e).
Proof.
  intros E1 E3 E4 p.
  exists (t1 ++ before_transcript w video_id ++ t3
             ++ progress_transcript transcript :: t4).
  assert (Hmain : main w a
                  = ((t1 ++ before_transcript w video_id ++ t3
                         ++ progress_transcript transcript :: t4)
                       ++ Stdout (summary ++ [nl]) :: trace p,
                     result_of p)).
  { rewrite main_table, E1, E3, E4. fold p. cbv zeta.
    f_equal. now rewrite <- !app_assoc. }
  split; [|split; [exact Hmain|split]].
  - pose proof (extract_video_id_quiet (url a)) as Q1.
    pose proof (fetch_transcript_quiet w video_id) as Q3.
    pose proof (summarize_quiet w transcript) as Q4.
    rewrite E1 in Q1. rewrite E3 in Q3. rewrite E4 in Q4.
    change (progress_transcript transcript :: t4)
      with ([progress_transcript transcript] ++ t4).
    rewrite !quiet_app. repeat split; auto.
  - destruct (run_process_trace w a) as (tb & -> & _).
    rewrite Hmain. exists tb. unfold trace at 1, fst.
    now rewrite <- app_assoc, <- app_comm_cons.
  - intros e He. apply run_process_raise with (t := fst (main w a)).
    rewrite Hmain, He. reflexivity.
Qed.

Lemma summary_printed_before_publishing_witness :
  let w := no_credential in
  let a := MkArgs (lit "https://youtu.be/dQw4w9WgXcQ") false in
  exists before,
    quiet before
    /\ main w a
       = (before ++ [Stdout (lit "TLDR: a greeting" ++ [nl]);
                     Stderr (lit "Error: OBSIDIAN_REST_API_KEY environment variable not set."
                             ++ [nl])],
          Raise (SystemExit 1)).
Proof.
  intros w a.
  destruct (@summary_printed_before_publishing
              w a (lit "dQw4w9WgXcQ") (lit "Hello world !")
              (lit "TLDR: a greeting") []
              [ListTranscripts (lit "dQw4w9WgXcQ"); FindManuallyCreated [en];
               Fetch en false]
              [MessagesCreate (completion (lit "Hello world !"))]
              eq_refl eq_refl eq_refl)
    as (before & Hq & Hmain & _).
  exists before. split; [exact Hq | exact Hmain].
Defined.

(** * Beyond the claims *)

(** ** The resolver on identifiers and on canonical URLs *)

Lemma shaped_has_slash sh m v : shaped sh m v -> In 47%N m.
Proof.
  intros H. destruct H; apply in_or_app; left; vm_compute; tauto.
Qed.

(** No URL shape fits into a string of identifier characters: every shape
    has a slash. *)
Lemma no_shape_in_id_chars s sh : Forall is_id_char s -> ~ has_shape sh s.
Proof.
  intros Hs (v & pre & m & post & -> & Hm & _).
  apply shaped_has_slash in Hm.
  rewrite Forall_forall in Hs.
  assert (H : is_id_char 47%N)
    by (apply Hs; apply in_or_app; right; apply in_or_app; now left).
  unfold is_id_char in H. lia.
Qed.

Lemma re_search_id_chars sh s :
  Forall is_id_char s -> re_search (pattern_of sh) s = None.
Proof.
  intros Hs. destruct (re_search (pattern_of sh) s) eqn:E; auto.
  exfalso. apply (@no_shape_in_id_chars s sh Hs).
  apply occurs_has_shape, re_search_occurs. rewrite E. discriminate.
Qed.

Lemma extract_video_id_valid s t v :
  extract_video_id s = (t, Ret v) -> valid_id v /\ t = [].
Proof.
  destruct (extract_video_id_cases s)
    as [(sh & w & _ & Hc & ->)|[(_ & Hv & ->)|(_ & ->)]];
    intros H; inversion H; subst; split; auto.
  eapply contains_valid, captured_contains; eauto.
Qed.

Lemma extract_video_id_bare s : valid_id s -> extract_video_id s = ret s.
Proof.
  intros Hv.
  destruct (extract_video_id_cases s)
    as [(sh & w & _ & Hc & _)|[(_ & _ & H)|(Hn & _)]]; auto.
  - exfalso. apply (@no_shape_in_id_chars s sh (proj2 Hv)).
    exists w. now apply captured_contains.
  - destruct Hn. now right.
Qed.

(** X1. A bare identifier is returned as it is, with nothing written; so
    resolving what the resolver returned gives the same identifier again. *)
Theorem extract_video_id_idempotent s :
  (valid_id s -> extract_video_id s = ret s)
  /\ (forall t v, extract_video_id s = (t, Ret v) -> extract_video_id v = ret v).
Proof.
  split.
  - apply extract_video_id_bare.
  - intros t v H. apply extract_video_id_bare.
    now apply extract_video_id_valid in H.
Qed.

Lemma extract_video_id_idempotent_witness :
  extract_video_id (lit "-_0aZ9zA_-x") = ret (lit "-_0aZ9zA_-x").
Proof.
  apply (proj1 (extract_video_id_idempotent (lit "-_0aZ9zA_-x"))).
  apply valid_idb_spec. reflexivity.
Defined.

(** X2. What the resolver returns is always a piece of its input: it
    never puts an identifier together. *)
Theorem extract_video_id_substring s t v :
  extract_video_id s = (t, Ret v) -> exists pre post, s = pre ++ v ++ post.
Proof.
  destruct (extract_video_id_cases s)
    as [(sh & w & _ & (pre & m & post & E & Hs & _) & ->)|[(_ & _ & ->)|(_ & ->)]];
    intros H; inversion H; subst.
  - destruct Hs.
    + exists (pre ++ lit "youtu.be/"), post. now rewrite <- !app_assoc.
    + exists (pre ++ lit "youtube.com/watch?" ++ mid ++ lit "v="), post.
      now rewrite <- !app_assoc.
    + exists (pre ++ lit "youtube.com/embed/"), post. now rewrite <- !app_assoc.
    + exists (pre ++ lit "youtube.com/v/"), post. now rewrite <- !app_assoc.
    + exists (pre ++ lit "youtube.com/shorts/"), post. now rewrite <- !app_assoc.
  - exists [], []. now rewrite app_nil_r.
Qed.

Lemma extract_video_id_substring_witness :
  exists pre post,
    lit "watch https://youtu.be/dQw4w9WgXcQ?t=42" = pre ++ lit "dQw4w9WgXcQ" ++ post.
Proof.
  apply (@extract_video_id_substring
           (lit "watch https://youtu.be/dQw4w9WgXcQ?t=42") [] (lit "dQw4w9WgXcQ")).
  vm_compute. reflexivity.
Defined.

Lemma re_search_skip_fail r pre s :
  all_fail r pre s -> re_search r (pre ++ s) = re_search r s.
Proof.
  induction pre as [|c pre IH]; [reflexivity|].
  intros [H1 H2]. cbn [app re_search]. rewrite H1. now apply IH.
Qed.

Lemma for_patterns_first before sh after s rest v :
  (forall sh', In sh' before -> re_search (pattern_of sh') s = None) ->
  re_search (pattern_of sh) s = Some (MkMatch (Some v)) ->
  for_patterns (map pattern_of (before ++ sh :: after)) s rest = ret v.
Proof.
  intros Hb Hs. induction before as [|sh' before IH]; cbn [app map for_patterns].
  - now rewrite Hs.
  - rewrite (Hb sh') by now left. apply IH. intros sh'' Hin. apply Hb. now right.
Qed.

Lemma match_here_prefixed_end l v :
  valid_id v ->
  match_here (Seq (lits l) id_group) (l ++ v) = Some (MkMatch (Some v)).
Proof.
  intros Hv. rewrite <- (app_nil_r v) at 1. now apply match_here_prefixed.
Qed.

Lemma match_here_watch_end v :
  valid_id v ->
  match_here pat_watch (lit "youtube.com/watch?" ++ lit "v=" ++ v)
  = Some (MkMatch (Some v)).
Proof.
  intros Hv.
  pose proof (@match_here_watch [] v []) as H.
  rewrite app_nil_r in H. apply H; auto; [constructor|].
  intros [|a [|b mid']] v' post' E _ _; [simpl; lia | discriminate |].
  exfalso. inversion E as [[Ha Hb E']].
  destruct Hv as [_ Hv]. rewrite Forall_forall in Hv.
  assert (H61 : is_id_char 61%N).
  { apply Hv. rewrite E'. apply in_or_app. right. right. now left. }
  unfold is_id_char in H61. lia.
Qed.

Ltac search_none :=
  cbv [canonical_url]; rewrite re_search_skip_fail;
  [ apply re_search_id_chars; assumption
  | cbv; repeat split; reflexivity ].

Ltac search_some l :=
  rewrite re_search_skip_fail;
  [ apply re_search_here; unfold_patterns; fold pat_watch
  | cbv; repeat split; reflexivity ].

(** X3. A URL of any of the five shapes, written the usual way around a
    valid identifier, resolves to that identifier. *)
Theorem extract_video_id_canonical sh v :
  valid_id v -> extract_video_id (canonical_url sh v) = ret v.
Proof.
  intros Hv. pose proof (proj2 Hv) as Hid.
  unfold extract_video_id. rewrite patterns_shapes. destruct sh.
  - apply (@for_patterns_first [] Short [Watch; Embed; VPath; Shorts]).
    + intros ? [].
    + change (canonical_url Short v) with (lit "https://" ++ lit "youtu.be/" ++ v).
      search_some tt. now apply match_here_prefixed_end.
  - apply (@for_patterns_first [Short] Watch [Embed; VPath; Shorts]).
    + intros sh' [<-|[]]. search_none.
    + change (canonical_url Watch v)
        with (lit "https://www." ++ lit "youtube.com/watch?" ++ lit "v=" ++ v).
      search_some tt. now apply match_here_watch_end.
  - apply (@for_patterns_first [Short; Watch] Embed [VPath; Shorts]).
    + intros sh' [<-|[<-|[]]]; search_none.
    + change (canonical_url Embed v)
        with (lit "https://www." ++ lit "youtube.com/embed/" ++ v).
      search_some tt. now apply match_here_prefixed_end.
  - apply (@for_patterns_first [Short; Watch; Embed] VPath [Shorts]).
    + intros sh' [<-|[<-|[<-|[]]]]; search_none.
    + change (canonical_url VPath v)
        with (lit "https://www." ++ lit "youtube.com/v/" ++ v).
      search_some tt. now apply match_here_prefixed_end.
  - apply (@for_patterns_first [Short; Watch; Embed; VPath] Shorts []).
    + intros sh' [<-|[<-|[<-|[<-|[]]]]]; search_none.
    + change (canonical_url Shorts v)
        with (lit "https://www." ++ lit "youtube.com/shorts/" ++ v).
      search_some tt. now apply match_here_prefixed_end.
Qed.

Lemma extract_video_id_canonical_witness :
  extract_video_id (lit "https://www.youtube.com/shorts/dQw4w9WgXcQ")
  = ret (lit "dQw4w9WgXcQ").
Proof.
  apply (@extract_video_id_canonical Shorts (lit "dQw4w9WgXcQ")).
  apply valid_idb_spec. reflexivity.
Defined.

(** ** Kinds of events, stage by stage *)

Lemma only_lacks p q t :
  only p t -> (forall e, p e = true -> q e = false) -> lacks q t.
Proof.
  unfold only, lacks. rewrite !forallb_forall. intros H Hpq e He.
  now rewrite (Hpq e (H e He)).
Qed.

Lemma only_app p t1 t2 : only p (t1 ++ t2) <-> only p t1 /\ only p t2.
Proof. unfold only. rewrite forallb_app. apply andb_true_iff. Qed.

Lemma lacks_app p t1 t2 : lacks p (t1 ++ t2) <-> lacks p t1 /\ lacks p t2.
Proof. unfold lacks. rewrite forallb_app. apply andb_true_iff. Qed.

Lemma lacks_cons p e t : lacks p (e :: t) <-> p e = false /\ lacks p t.
Proof.
  unfold lacks. cbn [forallb]. rewrite andb_true_iff, negb_true_iff. tauto.
Qed.

Lemma lacks_filter p t : lacks p t -> filter p t = [].
Proof.
  unfold lacks. induction t as [|e t IH]; [reflexivity|].
  cbn [forallb filter]. rewrite andb_true_iff, negb_true_iff.
  intros [-> H]. now apply IH.
Qed.

Lemma lacks_not_in p t e : lacks p t -> p e = true -> ~ In e t.
Proof.
  unfold lacks. rewrite forallb_forall. intros H He Hin.
  specialize (H e Hin). rewrite He in H. discriminate.
Qed.

Lemma extract_video_id_only s : only is_stderr (trace (extract_video_id s)).
Proof.
  destruct (extract_video_id_cases s)
    as [(sh & v & _ & _ & ->)|[(_ & _ & ->)|(_ & ->)]]; reflexivity.
Qed.

Lemma select_transcript_only tl :
  only is_transcript_call (trace (select_transcript tl)).
Proof.
  rewrite select_transcript_table.
  destruct (dict_get en (manually_created tl)); [reflexivity|].
  destruct (dict_get en (generated tl)); [reflexivity|].
  destruct (manually_created tl ++ generated tl); reflexivity.
Qed.

Lemma fetch_transcript_only w video_id :
  only (fun e => is_transcript_call e || is_stderr e)
       (trace (fetch_transcript w video_id)).
Proof.
  rewrite fetch_transcript_table.
  destruct (list_transcripts w video_id) as [tl|e]; [|reflexivity].
  assert (Hs : only (fun e => is_transcript_call e || is_stderr e)
                    (trace (select_transcript tl))).
  { pose proof (select_transcript_only tl) as H. unfold only in *.
    rewrite forallb_forall in *. intros e He. now rewrite (H e He). }
  destruct (select_transcript tl) as [ts [t|[e|code]]]; cbn [trace fst] in *.
  - destruct (entries t); cbn [trace fst];
      change (?x :: ?l ++ ?r) with ([x] ++ l ++ r);
      rewrite !only_app; repeat split; auto.
  - change (?x :: ?l ++ ?r) with ([x] ++ l ++ r).
    rewrite !only_app; repeat split; auto.
  - change (?x :: ?l) with ([x] ++ l). rewrite !only_app; repeat split; auto.
Qed.

Lemma summarize_only w t : only is_completion (trace (summarize w t)).
Proof.
  rewrite summarize_table. destruct (anthropic_client w); reflexivity.
Qed.



(** ** The Transcript Fetcher: failures and the translation *)

Lemma dict_get_no_english d : ~ has_english d -> dict_get en d = None.
Proof.
  intros H. apply dict_get_none. intros t Hin E. apply H. now exists t.
Qed.

Lemma str_eqb_eq a b : str_eqb a b = true <-> a = b.
Proof.
  unfold str_eqb. destruct (list_eq_dec N.eq_dec a b); split; auto; discriminate.
Qed.

Lemma translate_available t code :
  In code (translation_languages t) ->
  translate t code
  = Ok (MkTranscript code true [] (translated_entries t code)
                     (fun _ => Err (lit "The requested language is not translatable"))).
Proof.
  intros Hin. unfold translate.
  destruct (translation_languages t) as [|l ls] eqn:E; [contradiction|].
  replace (existsb (str_eqb code) (l :: ls)) with true; [reflexivity|].
  symmetry. apply existsb_exists. exists code. split; auto.
  now apply str_eqb_eq.
Qed.

Lemma translate_unavailable t code :
  ~ In code (translation_languages t) -> exists msg, translate t code = Err msg.
Proof.
  intros Hin. unfold translate.
  destruct (translation_languages t) as [|l ls] eqn:E; [eauto|].
  destruct (existsb (str_eqb code) (l :: ls)) eqn:Hex; [|eauto].
  apply existsb_exists in Hex. destruct Hex as (x & Hx & Heq).
  apply str_eqb_eq in Heq. subst x. contradiction.
Qed.

(** X4. [fetch_transcript] ends in one of two ways: it returns the text,
    having written nothing; or it writes one diagnostic, [Error fetching
    transcript: ] followed by the message of the exception, as its last
    action and exits with status 1.  No exception leaves it.  For a video
    without any track the message is empty. *)
Theorem fetch_transcript_outcomes w video_id :
  ((exists t s, fetch_transcript w video_id = (t, Ret s) /\ silent t)
   \/ (exists t msg,
         fetch_transcript w video_id
         = (t ++ [Stderr (lit "Error fetching transcript: " ++ msg ++ [nl])],
            Raise (SystemExit 1))
         /\ silent t))
  /\ (list_transcripts w video_id = Ok (MkTranscriptList [] []) ->
      fetch_transcript w video_id
      = ([ListTranscripts video_id; FindManuallyCreated [en];
          FindGenerated [en]; NextIter;
          Stderr (lit "Error fetching transcript: " ++ [nl])],
         Raise (SystemExit 1))).
Proof.
  rewrite fetch_transcript_table. fold (transcript_error). split.
  - destruct (list_transcripts w video_id) as [tl|e].
    + pose proof (select_transcript_only tl) as Ho.
      pose proof (@select_transcript_exit tl) as Hx.
      destruct (select_transcript tl) as [ts [t|[e|code]]]; cbn [trace fst] in Ho.
      * assert (Hs : silent ts) by (apply (only_lacks writes Ho); now intros []).
        destruct (entries t) as [es|e].
        -- left. eexists. eexists. split; [reflexivity|].
           change (?x :: ?l ++ ?r) with ([x] ++ l ++ r).
           unfold silent. rewrite !lacks_app. repeat split; auto.
        -- right. exists (ListTranscripts video_id
                            :: ts ++ [Fetch (language_code t) (is_generated t)]), e.
           split; [unfold transcript_error; now rewrite <- app_comm_cons, <- app_assoc|].
           change (?x :: ?l ++ ?r) with ([x] ++ l ++ r).
           unfold silent. rewrite !lacks_app. repeat split; auto.
      * right. exists (ListTranscripts video_id :: ts), e. split; [reflexivity|].
        assert (Hs : silent ts) by (apply (only_lacks writes Ho); now intros []).
        change (?x :: ?l) with ([x] ++ l).
        unfold silent. rewrite !lacks_app. repeat split; auto.
      * destruct (Hx ts (SystemExit code) eq_refl) as [msg Hm]. discriminate.
    + right. exists [ListTranscripts video_id], e. split; reflexivity.
  - intros ->. reflexivity.
Qed.

Lemma fetch_transcript_outcomes_witness :
  let w := MkWorld (fun _ => None) (fun _ => Err []) (fun _ => [])
                   (fun s => Ok s) (fun _ => Ok []) (fun _ => Err [])
                   (fun _ _ => Err []) (fun _ => Ok (MkTranscriptList [] []))
                   (Ok tt) (fun _ => Err []) in
  fetch_transcript w (lit "dQw4w9WgXcQ")
  = ([ListTranscripts (lit "dQw4w9WgXcQ"); FindManuallyCreated [en];
      FindGenerated [en]; NextIter;
      Stderr (lit "Error fetching transcript: " ++ [nl])],
     Raise (SystemExit 1)).
Proof.
  intros w.
  exact (proj2 (fetch_transcript_outcomes w (lit "dQw4w9WgXcQ")) eq_refl).
Defined.

(** X5. When there is neither a manually created nor a generated English
    track, the text returned is that of the English translation of the
    first enumerated track; when that track cannot be translated into
    English the fetcher gives up with its diagnostic and status 1. *)
Theorem fetch_transcript_translates w video_id tl t rest :
  list_transcripts w video_id = Ok tl ->
  ~ has_english (manually_created tl) ->
  ~ has_english (generated tl) ->
  manually_created tl ++ generated tl = t :: rest ->
  (forall es,
      In en (translation_languages t) ->
      translated_entries t en = Ok es ->
      fetch_transcript w video_id
      = ([ListTranscripts video_id; FindManuallyCreated [en];
          FindGenerated [en]; NextIter; Translate (language_code t) en;
          Fetch en true],
         Ret (spaced (map text es))))
  /\ (~ In en (translation_languages t) ->
      exists msg,
        fetch_transcript w video_id
        = ([ListTranscripts video_id; FindManuallyCreated [en];
            FindGenerated [en]; NextIter; Translate (language_code t) en;
            Stderr (lit "Error fetching transcript: " ++ msg ++ [nl])],
           Raise (SystemExit 1))).
Proof.
  intros Hl Hm Hg Hfirst.
  rewrite fetch_transcript_table, Hl, select_transcript_table.
  rewrite (dict_get_no_english Hm), (dict_get_no_english Hg), Hfirst.
  split.
  - intros es Hin Hes. rewrite (translate_available _ _ Hin).
    cbn [lift result_of snd ret entries language_code is_generated].
    rewrite Hes. cbn [app]. now rewrite join_spaced.
  - intros Hin. destruct (translate_unavailable _ _ Hin) as [msg ->].
    exists msg. reflexivity.
Qed.

Lemma fetch_transcript_translates_witness :
  let fr := MkTranscript (lit "fr") false [lit "de"; en]
                         (Ok [MkSnippet (lit "Bonjour") (QArith_base.Qmake 0 1)
                                        (QArith_base.Qmake 1 1)])
                         (fun _ => Ok [MkSnippet (lit "Hello") (QArith_base.Qmake 0 1)
                                                 (QArith_base.Qmake 1 1);
                                       MkSnippet (lit "there") (QArith_base.Qmake 1 1)
                                                 (QArith_base.Qmake 1 1)]) in
  let w := MkWorld (fun _ => None) (fun _ => Err []) (fun _ => [])
                   (fun s => Ok s) (fun _ => Ok []) (fun _ => Err [])
                   (fun _ _ => Err []) (fun _ => Ok (MkTranscriptList [fr] []))
                   (Ok tt) (fun _ => Err []) in
  fetch_transcript w (lit "dQw4w9WgXcQ")
  = ([ListTranscripts (lit "dQw4w9WgXcQ"); FindManuallyCreated [en];
      FindGenerated [en]; NextIter; Translate (lit "fr") en; Fetch en true],
     Ret (lit "Hello there")).
Proof.
  intros fr w.
  refine (proj1 (@fetch_transcript_translates
                   w (lit "dQw4w9WgXcQ") (MkTranscriptList [fr] []) fr []
                   eq_refl _ _ eq_refl) _ _ eq_refl).
  - intros (t & [<-|[]] & E). discriminate.
  - intros (t & [] & _).
  - right. now left.
Defined.

(** ** The Summarizer: outcomes and the size of the prompt *)

(** X6. [summarize] returns exactly the text of the first content block of
    the response.  Whatever else happens (the client cannot be made, the
    request raises, the response has no block, its first block has no
    text) leaves [summarize] as an exception, not as an exit; [summarize]
    itself writes no diagnostic and sends at most one request. *)
Theorem summarize_outcomes w t :
  (forall s,
      result_of (summarize w t) = Ret s <->
      (exists u, anthropic_client w = Ok u) /\
      exists msg rest,
        messages_create w (completion (truncated t)) = Ok msg /\
        blocks msg = TextBlock s :: rest)
  /\ (forall e, result_of (summarize w t) = Raise e -> exists msg, e = Exception msg)
  /\ silent (trace (summarize w t))
  /\ (length (trace (summarize w t)) <= 1)%nat.
Proof.
  rewrite summarize_table. split; [|split; [|split]].
  - intros s. destruct (anthropic_client w) as [u|e]; cbn [result_of snd].
    + destruct (messages_create w _) as [msg|e].
      * unfold first_text. destruct (blocks msg) as [|[s'|] rest] eqn:Hb;
          cbn [lift result_of snd ret raise]; split.
        all: try discriminate.
        all: try (intros (_ & msg' & rest' & E & Hb'); inversion E; subst msg';
                  rewrite Hb in Hb'; discriminate).
        -- intros E. inversion E; subst s'. split; [eauto|].
           exists msg, rest. auto.
        -- intros (_ & msg' & rest' & E & Hb'). inversion E; subst msg'.
           rewrite Hb in Hb'. now inversion Hb'.
      * split; [discriminate|]. intros (_ & msg & rest & E & _). discriminate.
    + split; [discriminate|]. intros ((u & E) & _). discriminate.
  - intros e. destruct (anthropic_client w) as [u|m]; cbn [result_of snd].
    + destruct (messages_create w _) as [msg|m].
      * destruct (first_text msg); cbn [lift result_of snd ret raise];
          intros E; inversion E. eauto.
      * intros E; inversion E. eauto.
    + intros E; inversion E. eauto.
  - destruct (anthropic_client w); reflexivity.
  - destruct (anthropic_client w); cbn [trace fst length]; lia.
Qed.

Lemma summarize_outcomes_witness :
  result_of (summarize no_credential (lit "Hello world !"))
  = Ret (lit "TLDR: a greeting").
Proof.
  apply (proj1 (summarize_outcomes no_credential (lit "Hello world !"))).
  split; [now exists tt|].
  exists (MkMessage [TextBlock (lit "TLDR: a greeting")]), []. split; reflexivity.
Defined.

Lemma slice_to_app_exact n (a b : str) :
  len a = n -> slice_to n (a ++ b) = a.
Proof.
  unfold len, slice_to. intros <-. rewrite Nat2Z.id.
  rewrite firstn_app, Nat.sub_diag, firstn_all. cbn [firstn]. apply app_nil_r.
Qed.

Lemma truncated_long t :
  (100000 < len t)%Z ->
  truncated t = slice_to 100000 t ++ nl :: lit "[transcript truncated]".
Proof.
  intros H. unfold truncated, max_chars.
  now replace (len t >? 100000)%Z with true by (symmetry; lia).
Qed.

Lemma truncated_short t : (len t <= 100000)%Z -> truncated t = t.
Proof.
  intros H. unfold truncated, max_chars.
  now replace (len t >? 100000)%Z with false by (symmetry; lia).
Qed.

(** X7. The transcript as it goes into the prompt never has more than
    100,023 characters, and preparing a prepared transcript changes
    nothing. *)
Theorem truncated_bounded t :
  (len (truncated t) <= 100023)%Z /\ truncated (truncated t) = truncated t.
Proof.
  assert (Hm : len (nl :: lit "[transcript truncated]") = 23%Z) by reflexivity.
  assert (Happ : forall a b : str, len (a ++ b) = (len a + len b)%Z)
    by (intros; unfold len; rewrite length_app; lia).
  destruct (Z_lt_le_dec 100000 (len t)) as [Hlong|Hshort].
  - assert (Hs : len (slice_to 100000 t) = 100000%Z) by (apply len_slice_to; lia).
    rewrite (@truncated_long t Hlong).
    assert (Hl : len (slice_to 100000 t ++ nl :: lit "[transcript truncated]")
                 = 100023%Z) by (rewrite Happ, Hs, Hm; reflexivity).
    split; [lia|].
    rewrite truncated_long by lia.
    now rewrite (@slice_to_app_exact 100000 _ _ Hs).
  - rewrite (@truncated_short t Hshort). split; [lia|].
    now apply truncated_short.
Qed.

Lemma truncated_bounded_witness :
  let t := repeat 97%N (Z.to_nat 150000) in
  (len (truncated t) <= 100023)%Z.
Proof.
  intros t. exact (proj1 (truncated_bounded t)).
Defined.

(** ** The Note Publisher: what it sends, and when *)

(** X8. An empty [OBSIDIAN_REST_API_KEY] counts as a missing one: the
    diagnostic, exit status 1, and no request. *)
Theorem empty_credential_is_missing w title video_id summary :
  environ w (lit "OBSIDIAN_REST_API_KEY") = Some [] ->
  send_to_obsidian w title video_id summary
  = ([Stderr (lit "Error: OBSIDIAN_REST_API_KEY environment variable not set."
              ++ [nl])],
     Raise (SystemExit 1)).
Proof. intros H. now rewrite send_to_obsidian_table, H. Qed.

Lemma empty_credential_is_missing_witness :
  let w := MkWorld (fun _ => Some []) (fun _ => Ok 27124%Z) (fun _ => [])
                   (fun s => Ok s) (fun _ => Ok []) (fun _ => Err [])
                   (fun _ _ => Ok (MkResponse 204 (Ok [])))
                   (fun _ => Err []) (Ok tt) (fun _ => Err []) in
  send_to_obsidian w (VStr (lit "A title")) (lit "dQw4w9WgXcQ") (lit "TLDR")
  = ([Stderr (lit "Error: OBSIDIAN_REST_API_KEY environment variable not set."
              ++ [nl])],
     Raise (SystemExit 1)).
Proof.
  intros w.
  exact (@empty_credential_is_missing w (VStr (lit "A title"))
           (lit "dQw4w9WgXcQ") (lit "TLDR") eq_refl).
Defined.

Lemma upload_requests w req path :
  filter is_request (trace (upload w req path))
  = [UrlOpen req (Some trusting_context)].
Proof.
  rewrite upload_table. destruct (urlopen w req _) as [resp|e]; [|reflexivity].
  destruct (status resp <? 300)%Z; reflexivity.
Qed.

(** The requests of [send_to_obsidian]: none, or the one upload, sent when
    all preparations have succeeded. *)
Lemma send_to_obsidian_requests w title video_id summary :
  filter is_request (trace (send_to_obsidian w title video_id summary)) = []
  \/ exists key port safe quoted data,
       upload_ready w title video_id summary key port safe quoted data /\
       filter is_request (trace (send_to_obsidian w title video_id summary))
       = [UrlOpen (put_request (vault_url port quoted) key data)
                  (Some trusting_context)].
Proof.
  rewrite send_to_obsidian_table. unfold upload_ready.
  destruct (environ w (lit "OBSIDIAN_REST_API_KEY")) as [[|c key]|];
    [now left | | now left].
  destruct (int_of_str w _) as [port|e]; [|now left].
  destruct (safe_title title) as [safe|e]; [|now left].
  cbv zeta. destruct (quote w _) as [quoted|e] eqn:Hq; [|now left].
  destruct (encode_utf8 w _) as [data|e]; [|now left].
  right. exists (c :: key), port, safe, quoted, data.
  rewrite upload_requests. repeat split; auto. discriminate.
Qed.

Lemma send_to_obsidian_request w title video_id summary req ctx :
  In (UrlOpen req ctx) (trace (send_to_obsidian w title video_id summary)) ->
  exists key port safe quoted data,
    upload_ready w title video_id summary key port safe quoted data /\
    req = put_request (vault_url port quoted) key data /\
    ctx = Some trusting_context.
Proof.
  intros Hin.
  assert (Hf : In (UrlOpen req ctx)
                  (filter is_request
                          (trace (send_to_obsidian w title video_id summary))))
    by (apply filter_In; split; auto).
  destruct (send_to_obsidian_requests w title video_id summary)
    as [E|(key & port & safe & quoted & data & Hr & E)]; rewrite E in Hf.
  - destruct Hf.
  - destruct Hf as [Hf|[]]. inversion Hf; subst.
    exists key, port, safe, quoted, data. auto.
Qed.

(** X9. [send_to_obsidian] sends at most one request, and only when the
    credential is there, the port is an integer, the title is a string,
    and the path and the note could be quoted and encoded.  The request is
    a PUT to [https://127.0.0.1:<port>/vault/<quoted path>] with the
    credential as bearer token, content type [text/markdown] and the
    encoded note as body, made with host name check and certificate
    verification switched off. *)
Theorem send_to_obsidian_request_shape w title video_id summary :
  (length (filter is_request
                  (trace (send_to_obsidian w title video_id summary))) <= 1)%nat
  /\ forall req ctx,
       In (UrlOpen req ctx) (trace (send_to_obsidian w title video_id summary)) ->
       exists key port safe quoted data,
         upload_ready w title video_id summary key port safe quoted data /\
         req = MkRequest (lit "https://127.0.0.1:" ++ str_of_int port
                          ++ lit "/vault/" ++ quoted)
                         (lit "PUT")
                         [(lit "Authorization", lit "Bearer " ++ key);
                          (lit "Content-Type", lit "text/markdown")]
                         (Some data) /\
         ctx = Some (MkSsl false CERT_NONE).
Proof.
  split.
  - destruct (send_to_obsidian_requests w title video_id summary)
      as [->|(key & port & safe & quoted & data & _ & ->)]; cbn [length]; lia.
  - intros req ctx Hin. apply send_to_obsidian_request in Hin.
    destruct Hin as (key & port & safe & quoted & data & Hr & -> & ->).
    exists key, port, safe, quoted, data. auto.
Qed.

Lemma send_to_obsidian_request_shape_witness :
  (length (filter is_request
                  (trace (send_to_obsidian store_accepts (VStr (lit "T"))
                                           (lit "dQw4w9WgXcQ") (lit "TLDR"))))
   <= 1)%nat.
Proof.
  exact (proj1 (send_to_obsidian_request_shape
                  store_accepts (VStr (lit "T")) (lit "dQw4w9WgXcQ") (lit "TLDR"))).
Defined.

(** X10. With the credential there, a failing preparation (a port setting
    that is no integer, a title that is no string, a path that cannot be
    quoted, a note that cannot be encoded) makes [send_to_obsidian] raise
    that exception at once: it writes no diagnostic and sends no request. *)
Theorem failed_preparation_raises w title video_id summary c key :
  environ w (lit "OBSIDIAN_REST_API_KEY") = Some (c :: key) ->
  let port_setting := environ_get w (lit "OBSIDIAN_REST_PORT") (lit "27124") in
  let folder := environ_get w (lit "OBSIDIAN_SUMMARY_FOLDER")
                            (lit "transcripts/videos") in
  (forall e, int_of_str w port_setting = Err e ->
             send_to_obsidian w title video_id summary = ([], Raise (Exception e)))
  /\ (forall port,
         int_of_str w port_setting = Ok port ->
         (forall e, safe_title title = Err e ->
                    send_to_obsidian w title video_id summary
                    = ([], Raise (Exception e)))
         /\ (forall safe,
               safe_title title = Ok safe ->
               (forall e, quote w (note_path folder safe) = Err e ->
                          send_to_obsidian w title video_id summary
                          = ([], Raise (Exception e)))
               /\ (forall quoted e,
                     quote w (note_path folder safe) = Ok quoted ->
                     encode_utf8 w (note_content video_id summary) = Err e ->
                     send_to_obsidian w title video_id summary
                     = ([], Raise (Exception e))))).
Proof.
  intros Hkey port_setting folder. rewrite send_to_obsidian_table, Hkey.
  fold port_setting. fold folder. split.
  - intros e ->. reflexivity.
  - intros port ->. split.
    + intros e ->. reflexivity.
    + intros safe ->. cbv zeta. split.
      * intros e ->. reflexivity.
      * intros quoted e -> ->. reflexivity.
Qed.

Lemma failed_preparation_raises_witness :
  let w := MkWorld (fun name => if str_eqb name (lit "OBSIDIAN_REST_PORT")
                                then Some (lit "https") else Some (lit "secret"))
                   (fun _ => Err (lit "invalid literal for int() with base 10: 'https'"))
                   (fun _ => []) (fun s => Ok s) (fun _ => Ok []) (fun _ => Err [])
                   (fun _ _ => Ok (MkResponse 204 (Ok [])))
                   (fun _ => Err []) (Ok tt) (fun _ => Err []) in
  send_to_obsidian w (VStr (lit "T")) (lit "dQw4w9WgXcQ") (lit "TLDR")
  = ([], Raise (Exception (lit "invalid literal for int() with base 10: 'https'"))).
Proof.
  intros w.
  exact (proj1 (@failed_preparation_raises
                  w (VStr (lit "T")) (lit "dQw4w9WgXcQ") (lit "TLDR")
                  115%N (lit "ecret") eq_refl)
               _ eq_refl).
Defined.

(** X11. Two uploads under the same title go to the same address with the
    same method and headers and under the same context, whatever the video
    and the summary: the second upload addresses the note of the first. *)
Theorem same_title_same_note w title v1 s1 v2 s2 req1 ctx1 req2 ctx2 :
  In (UrlOpen req1 ctx1) (trace (send_to_obsidian w title v1 s1)) ->
  In (UrlOpen req2 ctx2) (trace (send_to_obsidian w title v2 s2)) ->
  req_url req1 = req_url req2 /\ req_method req1 = req_method req2 /\
  req_headers req1 = req_headers req2 /\ ctx1 = ctx2.
Proof.
  intros H1 H2.
  apply send_to_obsidian_request in H1, H2.
  destruct H1 as (k1 & p1 & f1 & q1 & d1 & (Hk1 & _ & Hp1 & Hf1 & Hq1 & _) & -> & ->).
  destruct H2 as (k2 & p2 & f2 & q2 & d2 & (Hk2 & _ & Hp2 & Hf2 & Hq2 & _) & -> & ->).
  rewrite Hk1 in Hk2. inversion Hk2; subst k2.
  rewrite Hp1 in Hp2. inversion Hp2; subst p2.
  rewrite Hf1 in Hf2. inversion Hf2; subst f2.
  rewrite Hq1 in Hq2. inversion Hq2; subst q2.
  repeat split.
Qed.

Lemma same_title_same_note_witness :
  let w := store_accepts in
  let path := lit "transcripts/videos/T.md" in
  req_url (put_request (vault_url 27124 path) (lit "secret") [])
  = req_url (put_request (vault_url 27124 path) (lit "secret") []).
Proof.
  intros w path.
  refine (proj1 (@same_title_same_note
                   w (VStr (lit "T")) (lit "dQw4w9WgXcQ") (lit "first")
                   (lit "AAAAAAAAAAA") (lit "second")
                   _ (Some trusting_context) _ (Some trusting_context) _ _));
    left; reflexivity.
Defined.

(** ** The Note Publisher: the file name *)

Lemma hyphen_allowed : ~ is_forbidden hyphen.
Proof.
  unfold is_forbidden, forbidden_chars, hyphen. simpl. intuition discriminate.
Qed.

Lemma sanitize_char_allowed c : ~ is_forbidden (sanitize_char c).
Proof.
  unfold sanitize_char.
  destruct (in_dec N.eq_dec c forbidden_chars); [apply hyphen_allowed | assumption].
Qed.

Lemma sanitize_char_keep c : ~ is_forbidden c -> sanitize_char c = c.
Proof.
  intros H. unfold sanitize_char.
  destruct (in_dec N.eq_dec c forbidden_chars); [contradiction | reflexivity].
Qed.

Lemma sanitize_allowed t :
  Forall (fun c => ~ is_forbidden c) t -> map sanitize_char t = t.
Proof.
  induction 1 as [|c t Hc _ IH]; [reflexivity|].
  cbn [map]. now rewrite IH, sanitize_char_keep.
Qed.

Lemma forbidden_not_space c : is_forbidden c -> isspace c = false.
Proof.
  unfold is_forbidden, forbidden_chars. simpl.
  intros [<-|[<-|[<-|[<-|[<-|[<-|[<-|[<-|[<-|[]]]]]]]]]]; reflexivity.
Qed.

Lemma spaces_allowed t : spaces t -> Forall (fun c => ~ is_forbidden c) t.
Proof.
  unfold spaces. rewrite !Forall_forall. intros H c Hc Hf.
  apply forbidden_not_space in Hf. rewrite (H c Hc) in Hf. discriminate.
Qed.

Lemma lstrip_spaces t : spaces t -> lstrip t = [].
Proof.
  induction 1 as [|c t Hc _ IH]; [reflexivity|]. cbn [lstrip]. now rewrite Hc.
Qed.

Lemma strip_spaces t : spaces t -> strip t = [].
Proof. intros H. unfold strip. now rewrite (lstrip_spaces H). Qed.

Lemma strip_clean s : starts_clean s -> ends_clean s -> strip s = s.
Proof.
  intros Hs He.
  assert (Hl : forall x, starts_clean x -> lstrip x = x).
  { intros [|c x] Hx; [reflexivity|]. cbn [lstrip].
    now rewrite (Hx c x eq_refl). }
  unfold strip, rstrip. rewrite (Hl s Hs).
  rewrite Hl; [apply rev_involutive|].
  intros c r E. apply (He (rev r) c).
  rewrite <- (rev_involutive s), E. reflexivity.
Qed.

Lemma strip_part s c : In c (strip s) -> In c s.
Proof.
  destruct (strip_trimmed s) as (l & t & E & _). intros H. rewrite E.
  apply in_or_app. right. apply in_or_app. now left.
Qed.

Lemma strip_length s : (length (strip s) <= length s)%nat.
Proof.
  destruct (strip_trimmed s) as (l & t & E & _).
  rewrite E at 2. rewrite !length_app. lia.
Qed.

Lemma safe_title_str t : safe_title (VStr t) = Ok (strip (map sanitize_char t)).
Proof. unfold safe_title. now rewrite re_sub_forbidden. Qed.

(** X12. The file name made from a title holds none of the nine forbidden
    characters (so no path separator), neither starts nor ends with
    whitespace, and is never longer than the title.  A title of nothing
    but whitespace, the empty title among them, gives the empty name. *)
Theorem safe_title_invariants t safe :
  safe_title (VStr t) = Ok safe ->
  Forall (fun c => ~ is_forbidden c) safe
  /\ ~ In 47%N safe
  /\ starts_clean safe /\ ends_clean safe
  /\ (length safe <= length t)%nat
  /\ (spaces t -> safe = []).
Proof.
  rewrite safe_title_str. intros E. inversion E; subst safe. clear E.
  assert (Hf : Forall (fun c => ~ is_forbidden c) (strip (map sanitize_char t))).
  { apply Forall_forall. intros c Hc. apply strip_part in Hc.
    apply in_map_iff in Hc. destruct Hc as (x & <- & _).
    apply sanitize_char_allowed. }
  destruct (strip_trimmed (map sanitize_char t)) as (l & r & _ & _ & _ & Hs & He).
  repeat split; auto.
  - rewrite Forall_forall in Hf. intros H. apply (Hf _ H).
    unfold is_forbidden, forbidden_chars. simpl. auto.
  - pose proof (strip_length (map sanitize_char t)) as H.
    now rewrite length_map in H.
  - intros Hsp. rewrite (sanitize_allowed (spaces_allowed Hsp)).
    now apply strip_spaces.
Qed.

Lemma safe_title_invariants_witness :
  ~ In 47%N (lit "a-b-c").
Proof.
  exact (proj1 (proj2 (@safe_title_invariants (lit "  a/b\c ") (lit "a-b-c")
                                              eq_refl))).
Defined.

(** X13. Sanitizing is idempotent: a file name made from a title is its own
    file name. *)
Theorem safe_title_idempotent t safe :
  safe_title (VStr t) = Ok safe -> safe_title (VStr safe) = Ok safe.
Proof.
  rewrite !safe_title_str. intros E. inversion E as [E']. rewrite E'. clear E.
  assert (Hf : Forall (fun c => ~ is_forbidden c) safe).
  { subst safe. apply Forall_forall. intros c Hc. apply strip_part in Hc.
    apply in_map_iff in Hc. destruct Hc as (x & <- & _).
    apply sanitize_char_allowed. }
  rewrite (sanitize_allowed Hf). f_equal.
  destruct (strip_trimmed (map sanitize_char t)) as (l & r & _ & _ & _ & Hs & He).
  rewrite E' in Hs, He. now apply strip_clean.
Qed.

Lemma safe_title_idempotent_witness :
  safe_title (VStr (lit "My- Video- -Test-")) = Ok (lit "My- Video- -Test-").
Proof.
  exact (@safe_title_idempotent (lit "My: Video? <Test>")
           (lit "My- Video- -Test-") eq_refl).
Defined.

(** ** The process as a whole *)

Lemma fetch_transcript_raise w video_id t e :
  fetch_transcript w video_id = (t, Raise e) -> e = SystemExit 1.
Proof.
  rewrite fetch_transcript_table.
  destruct (list_transcripts w video_id) as [tl|msg];
    [|intros H; now inversion H].
  destruct (select_transcript tl) as [ts [t0|[msg|code]]] eqn:Hs.
  - destruct (entries t0); intros H; now inversion H.
  - intros H; now inversion H.
  - apply select_transcript_exit in Hs. destruct Hs as [msg Hs]. discriminate.
Qed.

Lemma summarize_raise w transcript t e :
  summarize w transcript = (t, Raise e) -> exists msg, e = Exception msg.
Proof.
  rewrite summarize_table.
  destruct (anthropic_client w); [|intros H; inversion H; eauto].
  destruct (messages_create w _) as [msg|msg]; [|intros H; inversion H; eauto].
  destruct (first_text msg); intros H; inversion H; eauto.
Qed.

Lemma upload_exit w req path t e :
  upload w req path = (t, Raise e) -> exit_code e = 1%Z.
Proof.
  rewrite upload_table. destruct (urlopen w req _) as [resp|msg].
  - destruct (status resp <? 300)%Z; discriminate.
  - intros H; now inversion H.
Qed.

Lemma send_to_obsidian_exit w title video_id summary t e :
  send_to_obsidian w title video_id summary = (t, Raise e) -> exit_code e = 1%Z.
Proof.
  rewrite send_to_obsidian_table.
  destruct (environ w _) as [[|c key]|];
    try (intros H; now inversion H).
  destruct (int_of_str w _); [|intros H; now inversion H].
  destruct (safe_title title); [|intros H; now inversion H].
  cbv zeta. destruct (quote w _); [|intros H; now inversion H].
  destruct (encode_utf8 w _); [|intros H; now inversion H].
  apply upload_exit.
Qed.

Lemma publish_exit w a title video_id summary t e :
  publish w a title video_id summary = (t, Raise e) -> exit_code e = 1%Z.
Proof.
  unfold publish. destruct (negb (no_obsidian a)); [|discriminate].
  apply send_to_obsidian_exit.
Qed.


Lemma extract_video_id_outcome s :
  (exists v, extract_video_id s = ret v)
  \/ (~ accepted s /\ extract_video_id s = invalid_input s).
Proof.
  destruct (extract_video_id_cases s)
    as [(sh & v & _ & _ & H)|[(_ & _ & H)|H]]; eauto.
Qed.

(** Where a run can end: at the resolver, at the transcript, at the
    summary, or after the summary has been printed. *)
Lemma run_process_cases w a :
  (~ accepted (url a) /\
   run_process w a = (trace (invalid_input (url a)), 1%Z))
  \/ exists video_id,
      extract_video_id (url a) = ret video_id /\
      ((exists t3,
           fetch_transcript w video_id = (t3, Raise (SystemExit 1)) /\
           run_process w a = (before_transcript w video_id ++ t3, 1%Z))
       \/ exists t3 transcript,
           fetch_transcript w video_id = (t3, Ret transcript) /\
           ((exists t4 msg,
                summarize w transcript = (t4, Raise (Exception msg)) /\
                run_process w a
                = (before_transcript w video_id ++ t3
                     ++ progress_transcript transcript :: t4 ++ [Traceback msg],
                   1%Z))
            \/ exists t4 summary tb,
                summarize w transcript = (t4, Ret summary) /\
                let p := publish w a (title_of w video_id) video_id summary in
                run_process w a
                = (before_transcript w video_id ++ t3
                     ++ progress_transcript transcript :: t4
                     ++ Stdout (summary ++ [nl]) :: trace p ++ tb,
                   match result_of p with Ret _ => 0%Z | Raise _ => 1%Z end)
                /\ lacks (fun e => is_stdout e || is_request e) tb)).
Proof.
  unfold run_process. rewrite main_table.
  destruct (extract_video_id_outcome (url a)) as [[video_id ->]|[Hn ->]];
    [right; exists video_id; split; [reflexivity|] | left; split; auto].
  unfold ret. cbn [app].
  destruct (fetch_transcript w video_id) as [t3 [transcript|e]] eqn:E3.
  2: { left. exists t3. apply fetch_transcript_raise in E3. subst e. auto. }
  right. exists t3, transcript. split; [reflexivity|].
  destruct (summarize w transcript) as [t4 [summary|e]] eqn:E4.
  2: { left. destruct (summarize_raise _ _ E4) as [msg ->]. exists t4, msg.
       split; [reflexivity|]. f_equal. now rewrite <- !app_assoc. }
  right. cbv zeta.
  destruct (publish w a (title_of w video_id) video_id summary)
    as [tp [[]|[msg|code]]] eqn:Ep; cbn [trace result_of fst snd].
  - exists t4, summary, []. rewrite Ep, app_nil_r. repeat split.
  - exists t4, summary, [Traceback msg]. rewrite Ep. repeat split.
    cbn [trace result_of]. f_equal.
    now repeat (rewrite <- app_assoc || rewrite <- app_comm_cons).
  - exists t4, summary, []. rewrite Ep, app_nil_r. repeat split.
    apply publish_exit in Ep. cbn in Ep. now subst code.
Qed.

(** X14. An input the resolver does not accept ends the run at once: one
    diagnostic, exit status 1, and no request to any service. *)
Theorem invalid_input_stops w a :
  ~ accepted (url a) ->
  run_process w a
  = ([Stderr (lit "Error: Could not extract video ID from: " ++ url a ++ [nl])],
     1%Z).
Proof.
  intros Hn. destruct (run_process_cases w a) as [[_ H]|(v & E & _)]; [exact H|].
  destruct (extract_video_id_cases (url a))
    as [(sh & v' & _ & Hc & _)|[(_ & Hv & _)|(_ & H)]].
  - destruct Hn. left. exists sh, v'. now apply captured_contains.
  - destruct Hn. now right.
  - rewrite H in E. discriminate.
Qed.

Lemma not_accepted_plain_text : ~ accepted (lit "not a video").
Proof.
  intros H.
  assert (E : extract_video_id (lit "not a video") = invalid_input (lit "not a video"))
    by (vm_compute; reflexivity).
  destruct (extract_video_id_cases (lit "not a video"))
    as [(sh & v & _ & _ & Hr)|[(_ & _ & Hr)|(Hn & _)]];
    [rewrite E in Hr; discriminate | rewrite E in Hr; discriminate | auto].
Qed.

Lemma invalid_input_stops_witness :
  run_process no_credential (MkArgs (lit "not a video") false)
  = ([Stderr (lit "Error: Could not extract video ID from: " ++ lit "not a video"
              ++ [nl])],
     1%Z).
Proof.
  exact (@invalid_input_stops no_credential (MkArgs (lit "not a video") false)
                              not_accepted_plain_text).
Defined.

(** X15. When the transcript cannot be fetched the run ends there with exit
    status 1: no completion request is sent, nothing is written to the
    standard output, nothing is uploaded. *)
Theorem transcript_failure_stops w a video_id t3 e :
  extract_video_id (url a) = ret video_id ->
  fetch_transcript w video_id = (t3, Raise e) ->
  run_process w a = (before_transcript w video_id ++ t3, 1%Z)
  /\ lacks (fun ev => is_completion ev || is_stdout ev || is_upload ev)
           (before_transcript w video_id ++ t3).
Proof.
  intros E1 E3. split.
  - unfold run_process. rewrite main_table, E1. unfold ret. cbn [app].
    rewrite E3. apply fetch_transcript_raise in E3. subst e. reflexivity.
  - apply lacks_app. split; [reflexivity|].
    pose proof (fetch_transcript_only w video_id) as H. rewrite E3 in H.
    apply (only_lacks _ H). now intros [].
Qed.

(** X16. When the summarizer raises, the run ends with the interpreter's
    report of that exception and exit status 1: the summary is never
    printed and nothing is uploaded. *)
Theorem completion_failure_stops w a video_id transcript t3 t4 e :
  extract_video_id (url a) = ret video_id ->
  fetch_transcript w video_id = (t3, Ret transcript) ->
  summarize w transcript = (t4, Raise e) ->
  exists msg,
    e = Exception msg
    /\ run_process w a
       = (before_transcript w video_id ++ t3
            ++ progress_transcript transcript :: t4 ++ [Traceback msg],
          1%Z)
    /\ lacks (fun ev => is_stdout ev || is_upload ev) (fst (run_process w a)).
Proof.
  intros E1 E3 E4. destruct (summarize_raise _ _ E4) as [msg ->]. exists msg.
  assert (Hr : run_process w a
               = (before_transcript w video_id ++ t3
                    ++ progress_transcript transcript :: t4 ++ [Traceback msg],
                  1%Z)).
  { unfold run_process. rewrite main_table, E1. unfold ret. cbn [app].
    rewrite E3, E4. f_equal.
    now repeat (rewrite <- app_assoc || rewrite <- app_comm_cons). }
  repeat split; auto. rewrite Hr. cbn [fst].
  pose proof (fetch_transcript_only w video_id) as H3. rewrite E3 in H3.
  pose proof (summarize_only w transcript) as H4. rewrite E4 in H4.
  change (progress_transcript transcript :: t4 ++ [Traceback msg])
    with ([progress_transcript transcript] ++ t4 ++ [Traceback msg]).
  rewrite !lacks_app. repeat split; try reflexivity.
  - apply (only_lacks _ H3). now intros [].
  - apply (only_lacks _ H4). now intros [].
Qed.

Lemma filter_only_nil p q t :
  only p t -> (forall e, p e = true -> q e = false) -> filter q t = [].
Proof. intros H Hpq. apply lacks_filter. exact (only_lacks q H Hpq). Qed.

Lemma lacks_or p q t :
  lacks (fun e => p e || q e) t -> lacks p t /\ lacks q t.
Proof.
  unfold lacks. rewrite !forallb_forall. intros H.
  split; intros e He; specialize (H e He);
    rewrite negb_true_iff, orb_false_iff in H; rewrite negb_true_iff; tauto.
Qed.

Lemma requests_fetch_transcript w video_id :
  filter is_request (trace (fetch_transcript w video_id)) = [].
Proof.
  apply (filter_only_nil _ (fetch_transcript_only w video_id)). now intros [].
Qed.

Lemma requests_summarize w transcript :
  filter is_request (trace (summarize w transcript)) = [].
Proof.
  apply (filter_only_nil _ (summarize_only w transcript)). now intros [].
Qed.




Lemma transcript_failure_stops_witness :
  let a := MkArgs (lit "https://youtu.be/dQw4w9WgXcQ") false in
  snd (run_process store_accepts a) = 1%Z
  /\ ~ In (Stdout []) (fst (run_process store_accepts a)).
Proof.
  intros a.
  destruct (@transcript_failure_stops
              store_accepts a (lit "dQw4w9WgXcQ")
              [ListTranscripts (lit "dQw4w9WgXcQ");
               Stderr (lit "Error fetching transcript: " ++ [nl])]
              (SystemExit 1) eq_refl eq_refl) as [Hr Hl].
  rewrite Hr. split; [reflexivity|].
  apply (lacks_not_in _ Hl). reflexivity.
Defined.

Lemma completion_failure_stops_witness :
  let a := MkArgs (lit "https://youtu.be/dQw4w9WgXcQ") false in
  snd (run_process no_completion a) = 1%Z
  /\ In (Traceback (lit "overloaded")) (fst (run_process no_completion a)).
Proof.
  intros a.
  destruct (@completion_failure_stops
              no_completion a (lit "dQw4w9WgXcQ") (lit "Hello world !")
              [ListTranscripts (lit "dQw4w9WgXcQ"); FindManuallyCreated [en];
               Fetch en false]
              [MessagesCreate (completion (lit "Hello world !"))]
              (Exception (lit "overloaded")) eq_refl eq_refl eq_refl)
    as (msg & Hm & Hr & _).
  inversion Hm; subst msg. rewrite Hr. split; [reflexivity|].
  cbn [fst]. rewrite !in_app_iff. right. right. right.
  apply in_app_iff. right. now left.
Defined.


(** X18. The calls of [urllib.request.urlopen] the script itself makes in
    a run whose command line is parsed: none when the input is rejected;
    otherwise the title lookup, and after it at most the one upload, which
    is sent only when publishing is enabled and every preparation of the
    Note Publisher has succeeded.  The requests the transcript library and
    the completion client send on their own are not among them. *)
Theorem process_requests w a :
  let rs := filter is_request (fst (run_process w a)) in
  (~ accepted (url a) /\ rs = [])
  \/ exists video_id,
       extract_video_id (url a) = ret video_id /\
       (rs = [UrlOpen (GET (oembed_url video_id)) None]
        \/ exists summary key port safe quoted data,
             no_obsidian a = false /\
             upload_ready w (title_of w video_id) video_id summary
                          key port safe quoted data /\
             rs = [UrlOpen (GET (oembed_url video_id)) None;
                   UrlOpen (put_request (vault_url port quoted) key data)
                           (Some trusting_context)]).
Proof.
  intros rs. subst rs.
  destruct (run_process_cases w a)
    as [[Hn Hr]|(video_id & E1 &
                [(t3 & E3 & Hr)
                |(t3 & transcript & E3 &
                  [(t4 & msg & E4 & Hr)|(t4 & summary & tb & E4 & Hr & Htb)])])].
  - left. rewrite Hr. auto.
  - right. exists video_id. split; [exact E1|left].
    rewrite Hr. cbn [fst]. rewrite filter_app.
    pose proof (requests_fetch_transcript w video_id) as H3.
    rewrite E3 in H3. cbn [trace fst] in H3. now rewrite H3.
  - right. exists video_id. split; [exact E1|left].
    rewrite Hr. cbn [fst].
    pose proof (requests_fetch_transcript w video_id) as H3.
    pose proof (requests_summarize w transcript) as H4.
    rewrite E3 in H3. rewrite E4 in H4. cbn [trace fst] in H3, H4.
    change (progress_transcript transcript :: t4 ++ [Traceback msg])
      with ([progress_transcript transcript] ++ t4 ++ [Traceback msg]).
    rewrite !filter_app, H3, H4. reflexivity.
  - right. exists video_id. split; [exact E1|].
    pose proof (requests_fetch_transcript w video_id) as H3.
    pose proof (requests_summarize w transcript) as H4.
    rewrite E3 in H3. rewrite E4 in H4. cbn [trace fst] in H3, H4.
    apply lacks_or in Htb. destruct Htb as [_ Htb].
    apply lacks_filter in Htb.
    assert (Hrs : filter is_request (fst (run_process w a))
                  = UrlOpen (GET (oembed_url video_id)) None
                      :: filter is_request
                           (trace (publish w a (title_of w video_id)
                                           video_id summary))).
    { rewrite Hr. cbn [fst].
      change (progress_transcript transcript
                :: t4 ++ Stdout (summary ++ [nl]) :: ?p ++ tb)
        with ([progress_transcript transcript]
                ++ t4 ++ [Stdout (summary ++ [nl])] ++ p ++ tb).
      rewrite !filter_app, H3, H4, Htb, app_nil_r. reflexivity. }
    rewrite Hrs. unfold publish.
    destruct (no_obsidian a); [now left|]. cbn [negb].
    destruct (send_to_obsidian_requests w (title_of w video_id) video_id summary)
      as [->|(key & port & safe & quoted & data & Hready & ->)]; [now left|].
    right. exists summary, key, port, safe, quoted, data. auto.
Qed.




